(** * QUBO encoders and result interpreters of the Dwave_learn notebooks

    A shallow embedding of the code cells of
    - [EX2-solution.ipynb] (graph partitioning, maximum cut, knapsack),
    - [EX0-Getting_started.ipynb] (the literal five-node Q matrix),
    - [toy-problem.ipynb] (the penalty-method toy problem),
    - [EX2-from_costrained_problem_to_QUBO.ipynb] (the partition check).

    Python's [defaultdict(int)] keyed by pairs of node ids is a
    [gmap (nat * nat) Z]; its coefficients are Python integers, [Z].
    The entries of a sample row are NumPy [int8], those of the knapsack
    series [int64], and the biases of the quadratic models [float64]:
    each is a [Z] with its wrap-around or rounding written out. *)

From stdpp Require Import gmap list fin_maps strings.
From Stdlib Require Import ZArith Lia.

Local Open Scope Z_scope.

(** ** The coefficient map *)

Module Qubo.

(** A key of the Q matrix: the tuple [(i, j)]. *)
Abbreviation key := (nat * nat)%type.

(** The key [(i, j)] with both indices read as naturals. *)
Definition at_ (i j : nat) : key := (i, j).

(** [Q[k]] on a [defaultdict(int)]: the stored value, [0] when absent. *)
Definition coeff (Q : gmap (nat * nat) Z) (k : key) : Z :=
  default 0 (Q !! k).

(** [Q[k] += c] on a [defaultdict(int)]. *)
Definition acc (k : key) (c : Z) (Q : gmap (nat * nat) Z) : gmap (nat * nat) Z :=
  <[k := coeff Q k + c]> Q.

(** [Q[k] = c] (plain assignment, as in EX0 and the toy problem). *)
Definition assign (k : key) (c : Z) (Q : gmap (nat * nat) Z) : gmap (nat * nat) Z :=
  <[k := c]> Q.

(** A term is one [Q[k] += c] statement; [add_terms] runs a sequence of
    them from left to right. *)
Definition add_terms (ts : list (key * Z)) (Q : gmap (nat * nat) Z) : gmap (nat * nat) Z :=
  foldl (λ Q t, acc t.1 t.2 Q) Q ts.

(** One summand [c * x_i * x_j] of the QUBO energy. *)
Definition term_energy (x : nat → Z) (k : key) (c : Z) : Z :=
  c * x k.1 * x k.2.

(** The energy the sampler ([sample_qubo]) assigns to an assignment [x]:
    the sum of [Q[(i,j)] * x_i * x_j] over the entries of the map. On a
    binary assignment a diagonal entry contributes [Q[(i,i)] * x_i], the
    linear term. *)
Definition energy (Q : gmap (nat * nat) Z) (x : nat → Z) : Z :=
  map_fold (λ k c e, e + term_energy x k c) 0 Q.

(** The same sum taken over a list of terms. *)
Definition terms_energy (x : nat → Z) (ts : list (key * Z)) : Z :=
  foldr (λ t e, term_energy x t.1 t.2 + e) 0 ts.

(** The total contribution of a list of terms to one key. *)
Definition contrib (k : key) (ts : list (key * Z)) : Z :=
  foldr (λ t s, (if decide (t.1 = k) then t.2 else 0) + s) 0 ts.

(** An assignment is binary on a list of variables. *)
Definition binary_on (vars : list nat) (x : nat → Z) : Prop :=
  ∀ i, i ∈ vars → x i = 0 ∨ x i = 1.

(** [sum(x_i for i in vars)]. *)
Definition xsum (x : nat → Z) (vars : list nat) : Z :=
  foldr (λ i s, x i + s) 0 vars.

(** The 0/1 indicator vector of a list of variables. *)
Definition indicator (S : list nat) : nat → Z :=
  λ i, if decide (i ∈ S) then 1 else 0.

(** [sum(w_i * x_i for i in vars)]. *)
Definition wsum (w x : nat → Z) (vars : list nat) : Z :=
  foldr (λ i s, w i * x i + s) 0 vars.

(** [x_i + x_j - 2*x_i*x_j]: 1 when the edge is cut, 0 otherwise. *)
Definition edge_score (x : nat → Z) (e : nat * nat) : Z :=
  x e.1 + x e.2 - 2 * x e.1 * x e.2.

(** The edge scores summed over a list of edges. *)
Definition cut_size (x : nat → Z) (es : list (nat * nat)) : Z :=
  foldr (λ e s, edge_score x e + s) 0 es.

(** The assignment with the two subsets swapped: [1 - x_i]. *)
Definition complement (x : nat → Z) : nat → Z := λ i, 1 - x i.

End Qubo.

(** ** Machine numbers

    The sample rows are NumPy [int8] arrays and the series of the
    knapsack data are [int64]; arithmetic on their entries stays in the
    entry type and wraps around. The quadratic-model objects store every
    bias as a [float64]. *)

Module Numeric.

(** A two's-complement integer of [bits] bits holding [z]. *)
Definition wrap_signed (bits : Z) (z : Z) : Z :=
  (z + 2 ^ (bits - 1)) mod 2 ^ bits - 2 ^ (bits - 1).

Definition int8 (z : Z) : Z := wrap_signed 8 z.
Definition int64 (z : Z) : Z := wrap_signed 64 z.

(** The [float64] nearest to an integer (ties to the even significand),
    as the integer it denotes; 53 bits of significand are kept. Integers
    of magnitude [2^1024] and more, which have no finite nearest value, do
    not occur: the operands come from [int64] data. *)
Definition f64 (z : Z) : Z :=
  let a := Z.abs z in
  let e := Z.log2 a - 52 in
  if e <=? 0 then z
  else
    let q := a / 2 ^ e in
    let r := a mod 2 ^ e in
    let half := 2 ^ (e - 1) in
    let q' := if r <? half then q
              else if half <? r then q + 1
              else if Z.even q then q else q + 1 in
    Z.sgn z * (q' * 2 ^ e).

End Numeric.

(** ** Graphs as the notebooks see them

    The notebooks only iterate over [G.nodes] and [G.edges]; a graph is
    the two sequences these views yield. *)

Record Graph := MkGraph {
  nodes : list nat;            (* G.nodes, in iteration order *)
  edges : list (nat * nat)     (* G.edges, in iteration order *)
}.

(** [itertools.combinations(l, 2)]: pairs in the order of [l]. *)
Fixpoint combinations (l : list nat) : list (nat * nat) :=
  match l with
  | [] => []
  | a :: l' => map (pair a) l' ++ combinations l'
  end.

(** The endpoints of the edges of a graph. *)
Definition endpoints (G : Graph) : list nat :=
  edges G ≫= λ e, [e.1; e.2].

(** [math.floor(n/2)] and [math.ceil(n/2)] for a node count [n]. *)
Definition floor_half (n : nat) : Z := Z.of_nat n / 2.
Definition ceil_half (n : nat) : Z := - ((- Z.of_nat n) / 2).

(** The number of edges of [G.edges] touching node [i]. *)
Definition degree (G : Graph) (i : nat) : Z :=
  Z.of_nat (length (filter (λ e, e.1 = i ∨ e.2 = i) (edges G))).

(** [u] comes before [v] in the sequence [l]. *)
Definition before (l : list nat) (u v : nat) : Prop :=
  ∃ a b, (a < b)%nat ∧ l !! a = Some u ∧ l !! b = Some v.

(** What a simple graph looks like through its views: every node once,
    every edge once, and an edge reported from the endpoint that comes
    first among the nodes. *)
Definition simple_graph (G : Graph) : Prop :=
  NoDup (nodes G) ∧
  NoDup (edges G) ∧
  ∀ u v, (u, v) ∈ edges G → before (nodes G) u v.

(** What a simple graph on nodes [0..n-1] looks like through the views of
    the random-graph builder: nodes in increasing order, every edge once,
    smaller endpoint first. *)
Definition gnp_shaped (G : Graph) : Prop :=
  nodes G = seq 0 (length (nodes G)) ∧
  NoDup (edges G) ∧
  ∀ u v, (u, v) ∈ edges G → (u < v)%nat ∧ (v < length (nodes G))%nat.

(** Small instances used to exercise the statements below. *)
Module Examples.

(** A four-cycle on the nodes 0..3. *)
Definition square_graph : Graph :=
  MkGraph [0; 1; 2; 3]%nat [(0, 1); (1, 2); (2, 3); (0, 3)]%nat.

(** A path on 41 nodes. *)
Definition path41 : Graph :=
  MkGraph (seq 0 41) ((λ i, (i, S i)) <$> seq 0 40).

(** Samples for [path41] with 19, 20, 21 and 22 ones. *)
Definition sample_with (k : nat) : list Z := replicate k 1 ++ replicate (41 - k) 0.

(** A path on 256 nodes and the sample that puts its first 128 nodes
    in subset 1. *)
Definition path256 : Graph :=
  MkGraph (seq 0 256) ((λ i, (i, S i)) <$> seq 0 255).

Definition half_of_256 : list Z := replicate 128 1 ++ replicate 128 0.

(** 32 nodes, with the 128 edges that join the nodes 0..7 to the nodes
    16..31, and the sample that puts the nodes 0..15 in subset 1: every
    edge is cut. *)
Definition bipartite32 : Graph :=
  MkGraph (seq 0 32) (seq 0 8 ≫= λ i, (λ j, (i, j)) <$> seq 16 16).

Definition half_of_32 : list Z := replicate 16 1 ++ replicate 16 0.

End Examples.

(** ** Graph partitioning (EX2-solution, first notebook) *)

Module Partition.
Import Qubo Numeric.

(** Body of [for u, v in G.edges]. *)
Definition objective_step (Q : gmap (nat * nat) Z) (e : nat * nat) : gmap (nat * nat) Z :=
  let '(u, v) := e in
  acc (u, v) (-2) (acc (v, v) 1 (acc (u, u) 1 Q)).

Definition add_objective (G : Graph) (Q : gmap (nat * nat) Z) : gmap (nat * nat) Z :=
  foldl objective_step Q (edges G).

(** [for i in G.nodes: Q[(i,i)] += gamma*(1-len(G.nodes))]. *)
Definition add_linear_penalty (gamma : Z) (G : Graph) (Q : gmap (nat * nat) Z) : gmap (nat * nat) Z :=
  foldl (λ Q i, acc (i, i) (gamma * (1 - Z.of_nat (length (nodes G)))) Q) Q (nodes G).

(** [for i, j in combinations(G.nodes, 2): Q[(i,j)] += 2*gamma]. *)
Definition add_pair_penalty (gamma : Z) (G : Graph) (Q : gmap (nat * nat) Z) : gmap (nat * nat) Z :=
  foldl (λ Q p, acc p (2 * gamma) Q) Q (combinations (nodes G)).

(** The whole cell: [Q = defaultdict(int)] followed by the three loops. *)
Definition build_Q (gamma : Z) (G : Graph) : gmap (nat * nat) Z :=
  add_pair_penalty gamma G (add_linear_penalty gamma G (add_objective G ∅)).

(** The objective portion: the first loop alone. *)
Definition objective_Q (G : Graph) : gmap (nat * nat) Z := add_objective G ∅.

(** The constraint-penalty portion: the second and third loops alone. *)
Definition penalty_Q (gamma : Z) (G : Graph) : gmap (nat * nat) Z :=
  add_pair_penalty gamma G (add_linear_penalty gamma G ∅).

(** The [+=] statements of each loop, as terms. *)
Definition objective_terms (es : list (nat * nat)) : list (key * Z) :=
  es ≫= λ e, [((e.1, e.1), 1); ((e.2, e.2), 1); ((e.1, e.2), -2)].

Definition linear_terms (gamma : Z) (n : nat) (ns : list nat) : list (key * Z) :=
  (λ i, ((i, i), gamma * (1 - Z.of_nat n))) <$> ns.

Definition pair_terms (gamma : Z) (ns : list nat) : list (key * Z) :=
  (λ p, (p, 2 * gamma)) <$> combinations ns.

(** *** The interpreter of the returned sample *)

Inductive report :=
  | ValidPartition (num_cut_edges : Z)   (* "Valid partition found with ... cut edges." *)
  | InvalidPartition.                    (* "Invalid partition." *)

(** [sample[u] + sample[v] - 2*sample[u]*sample[v]] on the entries of an
    [int8] row, every operation staying in [int8]; [None] is the
    IndexError of an index outside the sample. *)
Definition cut_term (sample : list Z) (e : nat * nat) : option Z :=
  xu ← sample !! e.1; xv ← sample !! e.2;
  Some (int8 (int8 (xu + xv) - int8 (int8 (2 * xu) * xv))).

(** The loop [for u, v in G.edges: num_cut_edges += ...], from 0; the
    counter takes the type of the terms and wraps with it. *)
Definition num_cut_edges (G : Graph) (sample : list Z) : option Z :=
  foldl (λ r e, n ← r; c ← cut_term sample e; Some (int8 (n + c))) (Some 0) (edges G).

(** [sum(sample)]: the entries added one by one from 0, in [int8]. *)
Definition sum_sample (sample : list Z) : Z :=
  foldl (λ acc v, int8 (acc + v)) 0 sample.

(** The feasibility test and what is printed; [None] when the loop
    raised. *)
Definition check_partition (G : Graph) (sample : list Z) : option report :=
  if decide (sum_sample sample ∈ [floor_half (length (nodes G)); ceil_half (length (nodes G))])
  then ValidPartition <$> num_cut_edges G sample
  else Some InvalidPartition.

(** The number of variables of the sample that are set to 1. *)
Definition ones (sample : list Z) : Z :=
  Z.of_nat (length (filter (λ v, v = 1) sample)).

(** A sample read as an assignment of the variables. *)
Definition assignment (sample : list Z) : nat → Z :=
  λ i, default 0 (sample !! i).

(** A sample as the sampler returns it for [G]: one binary value per
    node, and the edges refer to nodes of the sample. *)
Definition sample_of (G : Graph) (sample : list Z) : Prop :=
  length sample = length (nodes G) ∧
  Forall (λ v, v = 0 ∨ v = 1) sample ∧
  Forall (λ e, (e.1 < length sample)%nat ∧ (e.2 < length sample)%nat) (edges G).

(** [chain_strength = gamma*len(G.nodes)]. *)
Definition chain_strength (gamma : Z) (G : Graph) : Z :=
  gamma * Z.of_nat (length (nodes G)).

(** [len(G.nodes) * (len(G.nodes)-1) / 2], the number of possible edges
    that the set-up cell prints. *)
Definition possible_edges (G : Graph) : Z :=
  Z.of_nat (length (nodes G)) * (Z.of_nat (length (nodes G)) - 1) / 2.

End Partition.

(** ** Maximum cut (EX2-solution, second notebook) *)

Module MaxCut.
Import Qubo.

(** Body of [for i, j in G.edges]. *)
Definition maxcut_step (Q : gmap (nat * nat) Z) (e : nat * nat) : gmap (nat * nat) Z :=
  let '(i, j) := e in
  acc (i, j) 2 (acc (j, j) (-1) (acc (i, i) (-1) Q)).

(** [Q = defaultdict(int)] followed by the loop over the edges. *)
Definition build_Q (G : Graph) : gmap (nat * nat) Z :=
  foldl maxcut_step ∅ (edges G).

Definition maxcut_terms (es : list (nat * nat)) : list (key * Z) :=
  es ≫= λ e, [((e.1, e.1), -1); ((e.2, e.2), -1); ((e.1, e.2), 2)].

(** [G.add_edges_from([(1,2),(1,3),(2,4),(3,4),(3,5),(4,5)])]: the nodes
    appear in the order the edges introduce them. *)
Definition five_node_graph : Graph :=
  MkGraph [1; 2; 3; 4; 5]%nat
          [(1, 2); (1, 3); (2, 4); (3, 4); (3, 5); (4, 5)]%nat.

(** The printed reference map of the five-node instance. *)
Definition reference_Q : gmap (nat * nat) Z :=
  list_to_map
    [(at_ 1 1, -2); (at_ 2 2, -2); (at_ 1 2, 2); (at_ 3 3, -3); (at_ 1 3, 2);
     (at_ 4 4, -3); (at_ 2 4, 2); (at_ 3 4, 2); (at_ 5 5, -2); (at_ 3 5, 2);
     (at_ 4 5, 2)].

(** The same map written out by plain assignments in EX0-Getting_started. *)
Definition getting_started_Q : gmap (nat * nat) Z :=
  assign (at_ 4 5) 2 (assign (at_ 3 5) 2 (assign (at_ 5 5) (-2)
  (assign (at_ 3 4) 2 (assign (at_ 2 4) 2 (assign (at_ 4 4) (-3)
  (assign (at_ 1 3) 2 (assign (at_ 3 3) (-3) (assign (at_ 1 2) 2
  (assign (at_ 2 2) (-2) (assign (at_ 1 1) (-2) ∅)))))))))).

(** The sample [{1: 1, 2: 0, 3: 0, 4: 1, 5: 1}] of the printed results. *)
Definition best_sample : nat → Z := indicator [1; 4; 5]%nat.

(** [cut_edges = [(u, v) for u, v in G.edges if lut[u] != lut[v]]]. *)
Definition cut_edges (G : Graph) (lut : nat → Z) : list (nat * nat) :=
  filter (λ e, lut e.1 ≠ lut e.2) (edges G).

(** [uncut_edges = [(u, v) for u, v in G.edges if lut[u] == lut[v]]]. *)
Definition uncut_edges (G : Graph) (lut : nat → Z) : list (nat * nat) :=
  filter (λ e, lut e.1 = lut e.2) (edges G).

(** The cut size printed next to each sample: [int(-1*E)]. *)
Definition printed_cut_size (E : Z) : Z := -1 * E.

(** [S0 = [node for node in G.nodes if not lut[node]]]. *)
Definition S0 (G : Graph) (lut : nat → Z) : list nat :=
  filter (λ node, lut node = 0) (nodes G).

(** [S1 = [node for node in G.nodes if lut[node]]]. *)
Definition S1 (G : Graph) (lut : nat → Z) : list nat :=
  filter (λ node, lut node ≠ 0) (nodes G).

(** The sets printed for each row of the response:
    [S0 = [k for k,v in sample.items() if v == 0]] and
    [S1 = [k for k,v in sample.items() if v == 1]]. *)
Definition printed_S0 (items : list (nat * Z)) : list nat :=
  (filter (λ kv, kv.2 = 0) items).*1.

Definition printed_S1 (items : list (nat * Z)) : list nat :=
  (filter (λ kv, kv.2 = 1) items).*1.

(** The sample dict read as a look-up table: [sample[i]], and 0 for a
    variable the dict does not hold. *)
Definition sample_lut (items : list (nat * Z)) : nat → Z :=
  λ i, default 0 ((list_to_map items : gmap nat Z) !! i).

End MaxCut.

(** ** The penalty-method toy problem (toy-problem) *)

Module Toy.
Import Qubo.

Definition A : Z := 4.

(** [Q[(1,1)]=1-A; Q[(2,2)]=1-A; Q[(3,3)]=1; Q[(1,2)]=2*A]; the
    variables v, w, t are 1, 2, 3. *)
Definition toy_Q : gmap (nat * nat) Z :=
  assign (at_ 1 2) (2 * A) (assign (at_ 3 3) 1
  (assign (at_ 2 2) (1 - A) (assign (at_ 1 1) (1 - A) ∅))).

(** The same four statements written with [+=] on the default-valued map. *)
Definition toy_Q_accumulated : gmap (nat * nat) Z :=
  acc (at_ 1 2) (2 * A) (acc (at_ 3 3) 1
  (acc (at_ 2 2) (1 - A) (acc (at_ 1 1) (1 - A) ∅))).

Definition toy_vars : list nat := [1; 2; 3]%nat.

(** The printed map. *)
Definition printed_Q : gmap (nat * nat) Z :=
  list_to_map [(at_ 1 1, -3); (at_ 2 2, -3); (at_ 3 3, 1); (at_ 1 2, 8)].

(** The sample the notebook prints: [{1: 1, 2: 0, 3: 0}]. *)
Definition printed_sample : nat → Z := indicator [1]%nat.

(** The four assignments of the cell for an arbitrary penalty weight in
    place of [A = 4]. *)
Definition toy_Q_with (A : Z) : gmap (nat * nat) Z :=
  assign (at_ 1 2) (2 * A) (assign (at_ 3 3) 1
  (assign (at_ 2 2) (1 - A) (assign (at_ 1 1) (1 - A) ∅))).

End Toy.

(** ** Knapsack with the constrained-model sampler (EX2-solution, third notebook) *)

Module Knapsack.
Import Numeric.

(** The part of a quadratic model that [knapsack_dwave] touches: the
    variables in the order they were added, their linear biases, the
    offset. The model keeps its numbers as [float64]; the biases here are
    the integers those floats denote. *)
Record BQM := MkBQM {
  variables : list nat;
  linear : gmap nat Z;
  offset : Z
}.

(** [BinaryQuadraticModel(vartype="BINARY")] and [QuadraticModel()]. *)
Definition empty_bqm : BQM := MkBQM [] ∅ 0.

(** [obj.add_variable(i)]: a new variable is appended with bias 0, a
    known one keeps its place and its bias. *)
Definition add_variable (i : nat) (m : BQM) : BQM :=
  MkBQM (if decide (i ∈ variables m) then variables m else variables m ++ [i])
        (<[i := default 0 (linear m !! i)]> (linear m)) (offset m).

(** [obj.set_linear(i, b)]: the bias is replaced by [b] as a [float64];
    a variable the model does not know is added first. *)
Definition set_linear (i : nat) (b : Z) (m : BQM) : BQM :=
  let m' := add_variable i m in
  MkBQM (variables m') (<[i := f64 b]> (linear m')) (offset m').

(** The bias of a variable of the model. *)
Definition bias_of (m : BQM) (i : nat) : Z := default 0 (linear m !! i).

(** The value of a model at an assignment: from the offset, the term of
    each variable is added in the order of the variables, every product
    and every sum rounded to [float64]. *)
Definition bqm_energy (m : BQM) (x : nat → Z) : Z :=
  foldl (λ e i, f64 (e + f64 (bias_of m i * x i))) (offset m) (variables m).

(** The constrained model: objective, and the labelled constraint
    [lhs <= rhs], whose bound is kept as a [float64] too. *)
Record CQM := MkCQM {
  objective : BQM;
  capacity_lhs : BQM;
  capacity_rhs : Z
}.

(** Body of [for i in range(len(values))]; [None] is the KeyError of
    [values[i]] or [weights[i]]. The entries of the two series are
    [int64], and so is [-values[i]]. *)
Definition encode_step (values weights : list Z) (st : option (BQM * BQM)) (i : nat)
    : option (BQM * BQM) :=
  s ← st; v ← values !! i; w ← weights !! i;
  Some (set_linear i (int64 (- v)) (add_variable i s.1),
        set_linear i w (add_variable i s.2)).

(** The state of the loop after the first [k] items. *)
Definition loop (values weights : list Z) (k : nat) : option (BQM * BQM) :=
  foldl (encode_step values weights) (Some (empty_bqm, empty_bqm)) (seq 0 k).

(** The model-building half of [knapsack_dwave]. *)
Definition encode (values weights : list Z) (max_weight : Z) : option CQM :=
  s ← loop values weights (length values);
  Some (MkCQM s.1 s.2 (f64 max_weight)).

(** The sum of the magnitudes of the entries of a series, and of its
    entries at the given items (0 for an item the series does not hold). *)
Definition abs_total (series : list Z) : Z := foldr (λ v s, Z.abs v + s) 0 series.

Definition abs_total_at (series : list Z) (items : list nat) : Z :=
  foldr (λ i s, Z.abs (default 0 (series !! i)) + s) 0 items.

(** One row of the returned sample set. *)
Record row := MkRow {
  sample : list (nat * Z);     (* best.sample.items() *)
  energy : Z;
  is_feasible : bool
}.

(** [sampleset.filter(lambda row: row.is_feasible)]. *)
Definition feasible (sampleset : list row) : list row :=
  filter (λ r, is_feasible r = true) sampleset.

(** [.first]: a row of lowest energy (the earliest one among equals);
    [None] on an empty set. *)
Definition first (rows : list row) : option row :=
  foldl (λ best r,
           match best with
           | None => Some r
           | Some b => if energy r <? energy b then Some r else Some b
           end) None rows.

(** [[key for key, val in best.sample.items() if val == 1.0]]. *)
Definition selected (r : row) : list nat :=
  (filter (λ kv, kv.2 = 1) (sample r)).*1.

(** [sum(list(series.loc[items]))]; [None] is the KeyError of a label
    that is not in the series. *)
Definition sum_loc (series : list Z) (items : list nat) : option Z :=
  foldr Z.add 0 <$> mapM (λ i, series !! i) items.

(** What the result-parsing half of [knapsack_dwave] does. *)
Inductive outcome :=
  | ValueError (msg : string)
  | KeyError
  | Returned (total_value total_weight : Z) (selected_items : list nat)
             (best_solution_energy : Z).

Definition parse_output (values weights : list Z) (sampleset : list row) : outcome :=
  let feasible_sampleset := feasible sampleset in
  if decide (length feasible_sampleset = 0%nat)
  then ValueError "No feasible solution found"
  else
    match first feasible_sampleset with
    | None => ValueError "SampleSet is empty"
    | Some best =>
        let selected_items := selected best in
        match sum_loc weights selected_items, sum_loc values selected_items with
        | Some total_weight, Some total_value =>
            Returned total_value total_weight selected_items (energy best)
        | _, _ => KeyError
        end
    end.

(** A sample set for three items of values 60, 100, 120 and weights 10,
    20, 30 under capacity 50: the first row overshoots the capacity. *)
Definition small_sampleset : list row :=
  [MkRow [(0%nat, 1); (1%nat, 1); (2%nat, 1)] (-280) false;
   MkRow [(0%nat, 1); (1%nat, 0); (2%nat, 1)] (-180) true;
   MkRow [(0%nat, 0); (1%nat, 1); (2%nat, 1)] (-220) true].

(** The sample dict of a row read as an assignment: [sample[i]], and 0
    for a variable the dict does not hold. *)
Definition row_assignment (r : row) : nat → Z :=
  λ i, default 0 ((list_to_map (sample r) : gmap nat Z) !! i).

(** A row as the constrained sampler reports it for a model: each
    variable once and with a binary value, variables among the items, the
    energy is the objective at the sample, and the feasibility flag says
    whether the sample meets the capacity constraint. *)
Definition sound_row (n_items : nat) (cqm : CQM) (r : row) : Prop :=
  NoDup (sample r).*1 ∧
  Forall (λ kv, (kv.1 < n_items)%nat ∧ (kv.2 = 0 ∨ kv.2 = 1)) (sample r) ∧
  energy r = bqm_energy (objective cqm) (row_assignment r) ∧
  (is_feasible r = true
   ↔ bqm_energy (capacity_lhs cqm) (row_assignment r) ≤ capacity_rhs cqm).

End Knapsack.

(** * Properties *)

(** ** Accumulation and energy of coefficient maps *)

Module QuboFacts.
Import Qubo.

Lemma coeff_empty k : coeff ∅ k = 0.
Proof. unfold coeff. by rewrite lookup_empty. Qed.

Lemma coeff_acc_eq k c Q : coeff (acc k c Q) k = coeff Q k + c.
Proof. unfold coeff at 1, acc. by rewrite lookup_insert_eq. Qed.

Lemma coeff_acc_ne k k' c Q : k ≠ k' → coeff (acc k c Q) k' = coeff Q k'.
Proof. intros Hne. unfold coeff, acc. by rewrite lookup_insert_ne. Qed.

Lemma coeff_acc k k' c Q :
  coeff (acc k c Q) k' = coeff Q k' + (if decide (k = k') then c else 0).
Proof.
  case_decide as Hk.
  - subst k'. apply coeff_acc_eq.
  - rewrite coeff_acc_ne by done. lia.
Qed.

Lemma dom_acc k c Q : dom (acc k c Q) = {[k]} ∪ dom Q.
Proof. unfold acc. apply dom_insert_L. Qed.

Lemma acc_comm k1 c1 k2 c2 Q :
  acc k1 c1 (acc k2 c2 Q) = acc k2 c2 (acc k1 c1 Q).
Proof.
  apply map_eq; intros k. unfold acc, coeff.
  destruct (decide (k1 = k2)) as [->|Hne].
  - rewrite !lookup_insert_eq. simpl.
    destruct (decide (k2 = k)) as [->|Hk].
    + rewrite !lookup_insert_eq. f_equal. lia.
    + by rewrite !lookup_insert_ne.
  - rewrite (lookup_insert_ne _ k2 k1) by done.
    rewrite (lookup_insert_ne _ k1 k2) by done.
    by rewrite insert_insert_ne.
Qed.

Lemma add_terms_cons t ts Q : add_terms (t :: ts) Q = add_terms ts (acc t.1 t.2 Q).
Proof. reflexivity. Qed.

Lemma add_terms_app ts1 ts2 Q :
  add_terms (ts1 ++ ts2) Q = add_terms ts2 (add_terms ts1 Q).
Proof. unfold add_terms. apply foldl_app. Qed.

Lemma add_terms_perm ts1 ts2 Q :
  ts1 ≡ₚ ts2 → add_terms ts1 Q = add_terms ts2 Q.
Proof.
  intros Hp. revert Q. induction Hp as [|t l1 l2 _ IH|t1 t2 l|l1 l2 l3 _ IH1 _ IH2]; intros Q.
  - done.
  - rewrite !add_terms_cons. apply IH.
  - rewrite !add_terms_cons. f_equal. apply acc_comm.
  - by rewrite IH1, IH2.
Qed.

Lemma coeff_add_terms ts Q k :
  coeff (add_terms ts Q) k = coeff Q k + contrib k ts.
Proof.
  revert Q. induction ts as [|t ts IH]; intros Q.
  - simpl. lia.
  - rewrite add_terms_cons, IH, coeff_acc. simpl. lia.
Qed.

Lemma dom_add_terms ts Q :
  dom (add_terms ts Q) = list_to_set ts.*1 ∪ dom Q.
Proof.
  revert Q. induction ts as [|t ts IH]; intros Q.
  - simpl. by rewrite (left_id_L ∅ (∪)).
  - rewrite add_terms_cons, IH, dom_acc. simpl.
    by rewrite (assoc_L (∪)), (comm_L (∪) _ {[t.1]}).
Qed.

Lemma energy_empty x : energy ∅ x = 0.
Proof. unfold energy. apply map_fold_empty. Qed.

Lemma energy_insert_fresh k c Q x :
  Q !! k = None → energy (<[k := c]> Q) x = energy Q x + term_energy x k c.
Proof.
  intros Hk. unfold energy. rewrite map_fold_insert_L; [done| |done].
  intros; lia.
Qed.

Lemma energy_delete k c Q x :
  Q !! k = Some c → energy Q x = energy (delete k Q) x + term_energy x k c.
Proof.
  intros Hk. unfold energy.
  rewrite (map_fold_delete_L _ _ k c Q); [done| |done].
  intros; lia.
Qed.

Lemma energy_insert k c Q x :
  energy (<[k := c]> Q) x = energy Q x - term_energy x k (coeff Q k) + term_energy x k c.
Proof.
  unfold coeff. destruct (Q !! k) as [c0|] eqn:Hk; simpl.
  - rewrite <- insert_delete_eq.
    rewrite energy_insert_fresh by apply lookup_delete_eq.
    rewrite (energy_delete k c0 Q x Hk). lia.
  - rewrite energy_insert_fresh by done. unfold term_energy. lia.
Qed.

Lemma energy_acc k c Q x :
  energy (acc k c Q) x = energy Q x + term_energy x k c.
Proof. unfold acc. rewrite energy_insert. unfold term_energy. lia. Qed.

Lemma energy_add_terms ts Q x :
  energy (add_terms ts Q) x = energy Q x + terms_energy x ts.
Proof.
  revert Q. induction ts as [|t ts IH]; intros Q.
  - simpl. lia.
  - rewrite add_terms_cons, IH, energy_acc. simpl. lia.
Qed.

Lemma terms_energy_app x ts1 ts2 :
  terms_energy x (ts1 ++ ts2) = terms_energy x ts1 + terms_energy x ts2.
Proof. induction ts1 as [|t ts1 IH]; simpl; lia. Qed.

Lemma contrib_app k ts1 ts2 :
  contrib k (ts1 ++ ts2) = contrib k ts1 + contrib k ts2.
Proof. induction ts1 as [|t ts1 IH]; simpl; lia. Qed.


Lemma terms_energy_cons x t ts :
  terms_energy x (t :: ts) = term_energy x t.1 t.2 + terms_energy x ts.
Proof. reflexivity. Qed.

Lemma xsum_cons x i l : xsum x (i :: l) = x i + xsum x l.
Proof. reflexivity. Qed.

Lemma cut_size_cons x e es : cut_size x (e :: es) = edge_score x e + cut_size x es.
Proof. reflexivity. Qed.

Lemma binary_on_endpoints G x u v :
  binary_on (endpoints G) x → (u, v) ∈ edges G →
  (x u = 0 ∨ x u = 1) ∧ (x v = 0 ∨ x v = 1).
Proof.
  intros Hb He. split; apply Hb; unfold endpoints;
    apply list_elem_of_bind; exists (u, v); (split; [|done]); simpl.
  - apply list_elem_of_here.
  - apply list_elem_of_further, list_elem_of_here.
Qed.

Lemma binary_square (v : Z) : v = 0 ∨ v = 1 → v * v = v.
Proof. intros [->| ->]; reflexivity. Qed.

(** *** Sums against indicator vectors *)

Lemma wsum_cons w x i l : wsum w x (i :: l) = w i * x i + wsum w x l.
Proof. reflexivity. Qed.

Lemma wsum_app w x l1 l2 : wsum w x (l1 ++ l2) = wsum w x l1 + wsum w x l2.
Proof.
  induction l1 as [|a l1 IH]; [done|].
  cbn [app]. rewrite !wsum_cons, IH. lia.
Qed.

Lemma wsum_ext w x y l :
  (∀ i, i ∈ l → x i = y i) → wsum w x l = wsum w y l.
Proof.
  induction l as [|a l IH]; intros H; [done|].
  rewrite !wsum_cons, IH by (intros; apply H; by right).
  by rewrite (H a) by apply list_elem_of_here.
Qed.

Lemma wsum_plus w x y l :
  wsum w (λ i, x i + y i) l = wsum w x l + wsum w y l.
Proof. induction l as [|a l IH]; [done|]. rewrite !wsum_cons, IH. lia. Qed.

Lemma wsum_point_absent w a l :
  a ∉ l → wsum w (λ i, if decide (i = a) then 1 else 0) l = 0.
Proof.
  induction l as [|b l IH]; intros Ha; [done|].
  apply not_elem_of_cons in Ha as [Hne Ha].
  rewrite wsum_cons, IH by done. case_decide; [congruence|lia].
Qed.

Lemma wsum_point w a l :
  NoDup l → a ∈ l → wsum w (λ i, if decide (i = a) then 1 else 0) l = w a.
Proof.
  induction 1 as [|b l Hb Hl IH]; intros Ha.
  - by apply elem_of_nil in Ha.
  - rewrite wsum_cons. case_decide as Heq.
    + subst b. rewrite wsum_point_absent by done. lia.
    + apply elem_of_cons in Ha as [Ha|Ha]; [congruence|]. rewrite IH by done. lia.
Qed.

(** Summing weights against the indicator of [S] picks the weights of
    the members of [S]. *)
Lemma wsum_indicator w S l :
  NoDup S → NoDup l → (∀ i, i ∈ S → i ∈ l) →
  wsum w (indicator S) l = foldr (λ i s, w i + s) 0 S.
Proof.
  intros HS Hl. induction HS as [|a S Ha HS IH]; intros Hin.
  - induction l as [|b l IHl]; [done|].
    apply NoDup_cons in Hl as [_ Hl].
    rewrite wsum_cons, IHl by (done || intros ? []%elem_of_nil).
    unfold indicator. case_decide as Hb; [by apply elem_of_nil in Hb|lia].
  - rewrite (wsum_ext w _ (λ i, (if decide (i = a) then 1 else 0) + indicator S i)).
    + rewrite wsum_plus, wsum_point, IH; [done| |done|].
      * intros i Hi. apply Hin. by right.
      * apply Hin. by left.
    + intros i _. unfold indicator.
      destruct (decide (i = a)) as [->|Hne].
      * rewrite decide_True by by left. rewrite decide_False by done. lia.
      * destruct (decide (i ∈ S)) as [Hi|Hi].
        -- rewrite decide_True by by right. lia.
        -- rewrite decide_False; [lia|]. by apply not_elem_of_cons.
Qed.

Lemma xsum_wsum x l : xsum x l = wsum (λ _, 1) x l.
Proof. induction l as [|a l IH]; [done|]. rewrite xsum_cons, wsum_cons, IH. lia. Qed.

Lemma xsum_indicator S l :
  NoDup S → NoDup l → (∀ i, i ∈ S → i ∈ l) →
  xsum (indicator S) l = Z.of_nat (length S).
Proof.
  intros HS Hl Hin. rewrite xsum_wsum, wsum_indicator by done.
  clear. induction S as [|a S IH]; [done|]. cbn [foldr length]. lia.
Qed.

Lemma indicator_binary S l : binary_on l (indicator S).
Proof. intros i _. unfold indicator. case_decide; auto. Qed.

End QuboFacts.

(** ** Machine numbers *)

Module NumericFacts.
Import Numeric.

Lemma int8_unfold z : int8 z = (z + 128) mod 256 - 128.
Proof. reflexivity. Qed.

Lemma int8_range z : -128 ≤ int8 z ≤ 127.
Proof. rewrite int8_unfold. pose proof (Z.mod_pos_bound (z + 128) 256). lia. Qed.

Lemma int8_small z : -128 ≤ z ≤ 127 → int8 z = z.
Proof. intros Hz. rewrite int8_unfold, Z.mod_small; lia. Qed.

(** Reducing an intermediate sum changes nothing of the reduced total. *)
Lemma int8_add_l a b : int8 (int8 a + b) = int8 (a + b).
Proof.
  rewrite !int8_unfold.
  replace ((a + 128) mod 256 - 128 + b + 128) with ((a + 128) mod 256 + b) by lia.
  rewrite Z.add_mod_idemp_l by lia. do 2 f_equal. lia.
Qed.

Lemma int8_add_r a b : int8 (a + int8 b) = int8 (a + b).
Proof. by rewrite (Z.add_comm a), int8_add_l, (Z.add_comm b). Qed.

(** 128 is the first count an [int8] cannot hold. *)
Lemma int8_wraps_at_128 : int8 128 = -128.
Proof. reflexivity. Qed.

(** Whenever a count of at most 255 comes out of [int8] non-negative it
    is the count itself. *)
Lemma int8_nonneg_exact z : 0 ≤ z ≤ 255 → 0 ≤ int8 z → int8 z = z.
Proof.
  intros Hz. rewrite int8_unfold.
  destruct (decide (z ≤ 127)) as [Hs|Hl].
  - rewrite Z.mod_small; lia.
  - replace (z + 128) with (z - 128 + 1 * 256) by lia.
    rewrite Z.mod_add, Z.mod_small; lia.
Qed.

Lemma int64_small z : - 2 ^ 63 ≤ z < 2 ^ 63 → int64 z = z.
Proof.
  intros Hz. unfold int64, wrap_signed.
  change (64 - 1) with 63. change (2 ^ 64) with (2 * 2 ^ 63).
  rewrite Z.mod_small; lia.
Qed.

(** Integers below [2^53] in magnitude are [float64] values. *)
Lemma f64_small z : Z.abs z < 2 ^ 53 → f64 z = z.
Proof.
  intros Hz. unfold f64.
  assert (Z.log2 (Z.abs z) - 52 ≤ 0) as He.
  { destruct (decide (Z.abs z = 0)) as [->|Hnz]; [done|].
    assert (Z.log2 (Z.abs z) < 53); [|lia].
    apply Z.log2_lt_pow2; lia. }
  apply Z.leb_le in He. by rewrite He.
Qed.

(** Above [2^53] odd integers are not: the two values the knapsack
    objective meets there. *)
Lemma f64_rounds :
  f64 (2 ^ 53 + 1) = 2 ^ 53 ∧ f64 (- (2 ^ 53 + 1)) = - 2 ^ 53 ∧
  f64 (2 ^ 53 + 3) = 2 ^ 53 + 4 ∧ f64 (2 ^ 53 + 2) = 2 ^ 53 + 2.
Proof. by vm_compute. Qed.

End NumericFacts.

(** ** The max-cut encoder *)

Module MaxCutFacts.
Import Qubo QuboFacts MaxCut.

Lemma maxcut_Q_terms G : build_Q G = add_terms (maxcut_terms (edges G)) ∅.
Proof.
  unfold build_Q. generalize (∅ : gmap (nat * nat) Z) as Q.
  induction (edges G) as [|[i j] es IH]; intros Q; [done|].
  cbn [foldl]. rewrite IH. reflexivity.
Qed.

Lemma terms_energy_maxcut x es :
  (∀ u v, (u, v) ∈ es → (x u = 0 ∨ x u = 1) ∧ (x v = 0 ∨ x v = 1)) →
  terms_energy x (maxcut_terms es) = - cut_size x es.
Proof.
  induction es as [|[u v] es IH]; intros Hb; [done|].
  change (maxcut_terms ((u, v) :: es))
    with ([((u, u), -1); ((v, v), -1); ((u, v), 2)] ++ maxcut_terms es).
  rewrite terms_energy_app, IH by (intros; apply Hb; by apply list_elem_of_further).
  destruct (Hb u v (list_elem_of_here _ _)) as [Hu Hv].
  rewrite cut_size_cons. cbn [terms_energy foldr].
  unfold term_energy, edge_score. cbn [fst snd].
  pose proof (binary_square _ Hu). pose proof (binary_square _ Hv). lia.
Qed.

(** The energy of the max-cut map is minus the number of cut edges. *)
Lemma maxcut_energy G x :
  binary_on (endpoints G) x →
  energy (build_Q G) x = - cut_size x (edges G).
Proof.
  intros Hb. rewrite maxcut_Q_terms, energy_add_terms, energy_empty.
  rewrite terms_energy_maxcut; [lia|].
  intros u v. by apply binary_on_endpoints.
Qed.

(** The list of cut edges has as many elements as the edge scores sum to. *)
Lemma length_cut_edges G x :
  binary_on (endpoints G) x →
  Z.of_nat (length (cut_edges G x)) = cut_size x (edges G).
Proof.
  intros Hb. unfold cut_edges.
  assert (∀ u v, (u, v) ∈ edges G → (x u = 0 ∨ x u = 1) ∧ (x v = 0 ∨ x v = 1)) as H
    by (intros u v; by apply binary_on_endpoints).
  clear Hb. induction (edges G) as [|[u v] es IH]; [done|].
  rewrite cut_size_cons, <- IH by (intros; apply H; by apply list_elem_of_further).
  destruct (H u v (list_elem_of_here _ _)) as [Hu Hv].
  rewrite filter_cons. unfold edge_score. cbn [fst snd].
  case_decide as Hne; cbn [length];
    destruct Hu as [Hu|Hu], Hv as [Hv|Hv]; rewrite Hu, Hv in *; try done; lia.
Qed.

Lemma five_node_endpoints x :
  binary_on (nodes five_node_graph) x → binary_on (endpoints five_node_graph) x.
Proof.
  intros Hb i Hi. apply Hb.
  assert (Forall (λ i, i ∈ nodes five_node_graph) (endpoints five_node_graph)) as HF
    by (apply (bool_decide_unpack _); vm_compute; exact I).
  rewrite Forall_forall in HF. by apply HF.
Qed.

(** On the five-node instance the energy is minus the cut size. *)
Lemma five_node_energy x :
  binary_on (nodes five_node_graph) x →
  energy reference_Q x = - cut_size x (edges five_node_graph).
Proof.
  intros Hb.
  assert (build_Q five_node_graph = reference_Q) as <- by (vm_compute; reflexivity).
  by apply maxcut_energy, five_node_endpoints.
Qed.

Lemma five_node_binary x :
  binary_on (nodes five_node_graph) x →
  (x 1%nat = 0 ∨ x 1%nat = 1) ∧ (x 2%nat = 0 ∨ x 2%nat = 1) ∧
  (x 3%nat = 0 ∨ x 3%nat = 1) ∧ (x 4%nat = 0 ∨ x 4%nat = 1) ∧
  (x 5%nat = 0 ∨ x 5%nat = 1).
Proof.
  intros Hb. repeat split; apply Hb; unfold five_node_graph; cbn;
    rewrite !elem_of_cons; auto 10.
Qed.

Lemma five_node_cut_le x :
  binary_on (nodes five_node_graph) x → cut_size x (edges five_node_graph) ≤ 5.
Proof.
  intros (H1 & H2 & H3 & H4 & H5)%five_node_binary.
  unfold cut_size, edge_score, five_node_graph; cbn.
  destruct H1 as [-> | ->], H2 as [-> | ->], H3 as [-> | ->],
    H4 as [-> | ->], H5 as [-> | ->]; lia.
Qed.

Lemma best_sample_binary : binary_on (nodes five_node_graph) best_sample.
Proof. apply indicator_binary. Qed.

Lemma best_sample_energy : energy reference_Q best_sample = -5.
Proof. vm_compute. reflexivity. Qed.

(** C4. For the five-node graph with edges (1,2), (1,3), (2,4), (3,4),
    (3,5), (4,5) the max-cut encoder yields exactly the reference map (the
    one EX0-Getting_started writes out by hand), the least energy of that
    map over binary assignments is -5 and is attained, and every binary
    assignment of least energy cuts exactly 5 edges. *)
Theorem five_node_reference :
  build_Q five_node_graph = reference_Q ∧
  getting_started_Q = reference_Q ∧
  (∃ x, binary_on (nodes five_node_graph) x ∧ energy reference_Q x = -5) ∧
  (∀ y, binary_on (nodes five_node_graph) y → -5 ≤ energy reference_Q y) ∧
  (∀ x, binary_on (nodes five_node_graph) x →
        (∀ y, binary_on (nodes five_node_graph) y →
              energy reference_Q x ≤ energy reference_Q y) →
        cut_size x (edges five_node_graph) = 5 ∧
        length (cut_edges five_node_graph x) = 5%nat ∧
        printed_cut_size (energy reference_Q x) = 5).
Proof.
  split; [by vm_compute|]. split; [by vm_compute|].
  split; [exists best_sample; split; [apply best_sample_binary|apply best_sample_energy]|].
  split.
  - intros y Hy. rewrite five_node_energy by done.
    pose proof (five_node_cut_le y Hy). lia.
  - intros x Hx Hmin.
    specialize (Hmin best_sample best_sample_binary).
    rewrite best_sample_energy, five_node_energy in Hmin by done.
    pose proof (five_node_cut_le x Hx) as Hle.
    assert (cut_size x (edges five_node_graph) = 5) as Hcut by lia.
    split; [done|]. split.
    + apply Nat2Z.inj. by rewrite length_cut_edges by by apply five_node_endpoints.
    + unfold printed_cut_size. rewrite five_node_energy by done. lia.
Qed.

(** The sample printed first by the notebook is such a minimiser. *)
Lemma five_node_reference_witness :
  cut_size best_sample (edges five_node_graph) = 5 ∧
  length (cut_edges five_node_graph best_sample) = 5%nat ∧
  printed_cut_size (energy reference_Q best_sample) = 5.
Proof.
  destruct five_node_reference as (_ & _ & _ & Hlow & Hmin).
  apply (Hmin best_sample best_sample_binary).
  intros y Hy. rewrite best_sample_energy. by apply Hlow.
Defined.

End MaxCutFacts.

(** ** The graph-partition encoder and its interpreter *)

Module PartitionFacts.
Import Qubo QuboFacts Numeric Partition.

(** Each loop of the cell is a run of [+=] statements. *)
Lemma add_objective_terms G Q :
  add_objective G Q = add_terms (objective_terms (edges G)) Q.
Proof.
  unfold add_objective. destruct G as [ns es]; simpl. revert Q.
  induction es as [|[u v] es IH]; intros Q; [done|].
  cbn [foldl]. rewrite IH. reflexivity.
Qed.

Lemma add_linear_penalty_terms gamma G Q :
  add_linear_penalty gamma G Q =
  add_terms (linear_terms gamma (length (nodes G)) (nodes G)) Q.
Proof.
  unfold add_linear_penalty. generalize (length (nodes G)) as n.
  intros n. revert Q. induction (nodes G) as [|i ns IH]; intros Q; [done|].
  cbn [foldl]. rewrite IH. reflexivity.
Qed.

Lemma add_pair_penalty_terms gamma G Q :
  add_pair_penalty gamma G Q = add_terms (pair_terms gamma (nodes G)) Q.
Proof.
  unfold add_pair_penalty, pair_terms. revert Q.
  induction (combinations (nodes G)) as [|p ps IH]; intros Q; [done|].
  cbn [foldl]. rewrite IH. reflexivity.
Qed.

Lemma build_Q_terms gamma G :
  build_Q gamma G =
  add_terms (objective_terms (edges G)
             ++ linear_terms gamma (length (nodes G)) (nodes G)
             ++ pair_terms gamma (nodes G)) ∅.
Proof.
  unfold build_Q.
  rewrite add_pair_penalty_terms, add_linear_penalty_terms, add_objective_terms.
  by rewrite !add_terms_app.
Qed.

Lemma penalty_Q_terms gamma G :
  penalty_Q gamma G =
  add_terms (linear_terms gamma (length (nodes G)) (nodes G)
             ++ pair_terms gamma (nodes G)) ∅.
Proof.
  unfold penalty_Q.
  rewrite add_pair_penalty_terms, add_linear_penalty_terms.
  by rewrite add_terms_app.
Qed.

(** The built map is the objective portion plus the penalty portion. *)
Lemma energy_build_Q gamma G x :
  energy (build_Q gamma G) x =
  energy (objective_Q G) x + energy (penalty_Q gamma G) x.
Proof.
  rewrite build_Q_terms, penalty_Q_terms. unfold objective_Q.
  rewrite add_objective_terms, !energy_add_terms, energy_empty.
  rewrite !terms_energy_app. lia.
Qed.

(** *** Energy of the objective terms *)

Lemma terms_energy_objective x es :
  (∀ u v, (u, v) ∈ es → (x u = 0 ∨ x u = 1) ∧ (x v = 0 ∨ x v = 1)) →
  terms_energy x (objective_terms es) = cut_size x es.
Proof.
  induction es as [|[u v] es IH]; intros Hb; [done|].
  change (objective_terms ((u, v) :: es))
    with ([((u, u), 1); ((v, v), 1); ((u, v), -2)] ++ objective_terms es).
  rewrite terms_energy_app, IH by (intros; apply Hb; by apply list_elem_of_further).
  destruct (Hb u v (list_elem_of_here _ _)) as [Hu Hv].
  rewrite cut_size_cons. cbn [terms_energy foldr].
  unfold term_energy, edge_score. cbn [fst snd].
  pose proof (binary_square _ Hu). pose proof (binary_square _ Hv). lia.
Qed.

Lemma energy_objective_Q G x :
  binary_on (endpoints G) x →
  energy (objective_Q G) x = cut_size x (edges G).
Proof.
  intros Hb. unfold objective_Q.
  rewrite add_objective_terms, energy_add_terms, energy_empty.
  rewrite terms_energy_objective; [lia|].
  intros u v. by apply binary_on_endpoints.
Qed.

(** *** Energy of the penalty terms *)

Lemma terms_energy_linear x gamma n ns :
  binary_on ns x →
  terms_energy x (linear_terms gamma n ns) = gamma * (1 - Z.of_nat n) * xsum x ns.
Proof.
  induction ns as [|i ns IH]; intros Hb; [simpl; lia|].
  change (linear_terms gamma n (i :: ns))
    with (((i, i), gamma * (1 - Z.of_nat n)) :: linear_terms gamma n ns).
  rewrite terms_energy_cons, xsum_cons, IH by (intros j Hj; apply Hb; by right).
  unfold term_energy; cbn [fst snd].
  destruct (Hb i (list_elem_of_here _ _)) as [-> | ->]; lia.
Qed.

Lemma terms_energy_row x gamma a ns :
  terms_energy x ((λ p, (p, 2 * gamma)) <$> map (pair a) ns)
  = 2 * gamma * x a * xsum x ns.
Proof.
  induction ns as [|i ns IH]; [simpl; lia|].
  change (terms_energy x ((λ p, (p, 2 * gamma)) <$> map (pair a) (i :: ns)))
    with (term_energy x (a, i) (2 * gamma)
          + terms_energy x ((λ p, (p, 2 * gamma)) <$> map (pair a) ns)).
  rewrite IH, xsum_cons. unfold term_energy; cbn [fst snd]. lia.
Qed.

Lemma terms_energy_pairs x gamma ns :
  binary_on ns x →
  terms_energy x (pair_terms gamma ns) = gamma * (xsum x ns * xsum x ns - xsum x ns).
Proof.
  unfold pair_terms.
  induction ns as [|a ns IH]; intros Hb; [simpl; lia|].
  cbn [combinations].
  rewrite fmap_app, terms_energy_app, terms_energy_row, xsum_cons.
  rewrite IH by (intros j Hj; apply Hb; by right).
  destruct (Hb a (list_elem_of_here _ _)) as [-> | ->]; lia.
Qed.

(** The penalty portion is [gamma * s * (s - n)] for an assignment with
    [s] ones among the [n] nodes. *)
Lemma energy_penalty_Q gamma G x :
  binary_on (nodes G) x →
  energy (penalty_Q gamma G) x =
  gamma * xsum x (nodes G) * (xsum x (nodes G) - Z.of_nat (length (nodes G))).
Proof.
  intros Hb. rewrite penalty_Q_terms, energy_add_terms, energy_empty.
  rewrite terms_energy_app, terms_energy_linear, terms_energy_pairs by done.
  lia.
Qed.

(** *** The penalty portion and the equal-size constraint *)

Lemma even_half n : Nat.Even n → Z.of_nat n = 2 * floor_half n.
Proof.
  intros [m ->]. unfold floor_half.
  rewrite Nat2Z.inj_mul, Z.mul_comm, Z.div_mul by lia. simpl. lia.
Qed.

(** A balanced assignment exists: put the first half of the nodes in
    subset 1. *)
Lemma balanced_exists G :
  NoDup (nodes G) →
  let y := indicator (take (length (nodes G) / 2) (nodes G)) in
  binary_on (nodes G) y ∧ xsum y (nodes G) = floor_half (length (nodes G)).
Proof.
  intros Hnd y. split; [apply indicator_binary|].
  unfold y. rewrite xsum_indicator.
  - rewrite length_take. unfold floor_half.
    rewrite Nat.min_l by (apply Nat.Div0.div_le_upper_bound; lia).
    by rewrite Nat2Z.inj_div.
  - rewrite <- (take_drop (length (nodes G) / 2) (nodes G)) in Hnd.
    by apply NoDup_app in Hnd as [? _].
  - done.
  - intros i Hi. by apply (subseteq_take _ _ i Hi).
Qed.

(** C1. With [gamma > 0] and an even number of nodes, a binary assignment
    minimises the penalty portion of the coefficient map over all binary
    assignments exactly when its coordinate sum is [n/2]. *)
Theorem penalty_minimum_iff_balanced (gamma : Z) (G : Graph) (x : nat → Z) :
  0 < gamma →
  NoDup (nodes G) →
  Nat.Even (length (nodes G)) →
  binary_on (nodes G) x →
  (∀ y, binary_on (nodes G) y →
        energy (penalty_Q gamma G) x ≤ energy (penalty_Q gamma G) y)
  ↔ xsum x (nodes G) = floor_half (length (nodes G)).
Proof.
  intros Hg Hnd Hev Hx. apply even_half in Hev.
  rewrite energy_penalty_Q by done. rewrite Hev.
  set (h := floor_half (length (nodes G))) in *. set (s := xsum x (nodes G)).
  split.
  - intros Hmin. destruct (balanced_exists G Hnd) as [Hy Hsum].
    specialize (Hmin _ Hy). rewrite energy_penalty_Q, Hsum, Hev in Hmin by done.
    fold h in Hmin.
    assert (gamma * ((s - h) * (s - h)) ≤ 0) as Hsq by lia.
    assert (0 ≤ (s - h) * (s - h)) by apply Z.square_nonneg.
    assert ((s - h) * (s - h) = 0) as Hz by nia.
    apply Z.mul_eq_0 in Hz. lia.
  - intros -> y Hy. rewrite energy_penalty_Q, Hev by done. fold h.
    set (t := xsum y (nodes G)).
    assert (0 ≤ gamma * ((t - h) * (t - h)))
      by (apply Z.mul_nonneg_nonneg; [lia|apply Z.square_nonneg]).
    lia.
Qed.

(** C2, as the code has it. The constant [gamma*(n/2)^2] of the squared
    constraint is dropped from the map, so for [gamma > 0], [n] even and a
    binary assignment with coordinate sum [s] the penalty portion
    evaluates to [gamma*(s - n/2)^2 - gamma*(n/2)^2]: exactly
    [-gamma*(n/2)^2] when [s = n/2] and strictly more otherwise. *)
Theorem penalty_value (gamma : Z) (G : Graph) (x : nat → Z) :
  0 < gamma →
  Nat.Even (length (nodes G)) →
  binary_on (nodes G) x →
  let h := floor_half (length (nodes G)) in
  let s := xsum x (nodes G) in
  energy (penalty_Q gamma G) x + gamma * h * h = gamma * (s - h) * (s - h) ∧
  (s = h → energy (penalty_Q gamma G) x = - (gamma * h * h)) ∧
  (s ≠ h → - (gamma * h * h) < energy (penalty_Q gamma G) x).
Proof.
  intros Hg Hev Hx h s. apply even_half in Hev. fold h in Hev.
  rewrite energy_penalty_Q by done. fold s. rewrite Hev.
  split; [lia|]. split.
  - intros ->. lia.
  - intros Hne.
    assert (0 < (s - h) * (s - h)) by nia.
    assert (0 < gamma * ((s - h) * (s - h))) by (apply Z.mul_pos_pos; lia).
    lia.
Qed.

(** *** The interpreter recomputes the cut from the sample *)

Lemma assignment_binary sample l :
  Forall (λ v, v = 0 ∨ v = 1) sample → binary_on l (assignment sample).
Proof.
  intros HF i _. unfold assignment.
  destruct (sample !! i) as [v|] eqn:Hi; simpl; [|by left].
  rewrite Forall_forall in HF. apply HF. by eapply list_elem_of_lookup_2.
Qed.

(** On binary entries no operation of the edge term leaves [int8]. *)
Lemma cut_term_in_range sample e :
  Forall (λ v, v = 0 ∨ v = 1) sample →
  (e.1 < length sample)%nat → (e.2 < length sample)%nat →
  cut_term sample e = Some (edge_score (assignment sample) e).
Proof.
  intros Hb [xu Hu]%lookup_lt_is_Some [xv Hv]%lookup_lt_is_Some.
  unfold cut_term, edge_score, assignment. rewrite Hu, Hv.
  cbn [mbind option_bind default]. f_equal.
  rewrite Forall_lookup in Hb.
  destruct (Hb _ _ Hu) as [-> | ->], (Hb _ _ Hv) as [-> | ->]; reflexivity.
Qed.

(** The counter holds the number of cut edges so far, reduced to [int8]. *)
Lemma num_cut_edges_from sample es a :
  Forall (λ v, v = 0 ∨ v = 1) sample →
  Forall (λ e, (e.1 < length sample)%nat ∧ (e.2 < length sample)%nat) es →
  foldl (λ r e, n ← r; c ← cut_term sample e; Some (int8 (n + c))) (Some (int8 a)) es
  = Some (int8 (a + cut_size (assignment sample) es)).
Proof.
  intros Hb HF. revert a. induction HF as [|e es [H1 H2] _ IH]; intros a.
  - simpl. do 2 f_equal. lia.
  - cbn [foldl]. rewrite cut_term_in_range by done. cbn [mbind option_bind].
    rewrite NumericFacts.int8_add_l, IH, cut_size_cons. do 2 f_equal. lia.
Qed.

Lemma num_cut_edges_int8 G sample :
  sample_of G sample →
  num_cut_edges G sample = Some (int8 (cut_size (assignment sample) (edges G))).
Proof.
  intros (_ & Hb & HF). unfold num_cut_edges.
  change (Some 0) with (Some (int8 0)).
  by rewrite num_cut_edges_from.
Qed.

(** Below 128 cut edges the counter is the number of cut edges. *)
Lemma num_cut_edges_cut_size G sample :
  sample_of G sample →
  cut_size (assignment sample) (edges G) < 128 →
  num_cut_edges G sample = Some (cut_size (assignment sample) (edges G)).
Proof.
  intros Hs Hlt. rewrite num_cut_edges_int8 by done. f_equal.
  apply NumericFacts.int8_small.
  destruct Hs as (_ & Hb & _).
  pose proof (MaxCutFacts.length_cut_edges G (assignment sample)
                (assignment_binary sample (endpoints G) Hb)).
  lia.
Qed.

(** C3, as the code has it. For a binary assignment the sum of
    [x_i + x_j - 2*x_i*x_j] over the edges equals the energy of the
    objective portion of the graph-partition map, and equals minus the
    energy of the max-cut map (whose objective terms carry the opposite
    sign); it is the number of edges the max-cut interpreter lists as cut
    and, below 128 cut edges, the count the partition interpreter
    recomputes from a sample in the [int8] arithmetic of the sample row.
    The objective portion is what is left of the built partition map once
    the penalty portion is taken away. *)
Theorem cut_count_vs_objective_energy (G : Graph) (x : nat → Z) :
  binary_on (endpoints G) x →
  cut_size x (edges G) = energy (objective_Q G) x ∧
  (∀ gamma, energy (objective_Q G) x
            = energy (build_Q gamma G) x - energy (penalty_Q gamma G) x) ∧
  cut_size x (edges G) = - energy (MaxCut.build_Q G) x ∧
  Z.of_nat (length (MaxCut.cut_edges G x)) = cut_size x (edges G) ∧
  (∀ sample, sample_of G sample → x = assignment sample →
     cut_size x (edges G) < 128 →
     num_cut_edges G sample = Some (energy (objective_Q G) x)).
Proof.
  intros Hb. split; [|split; [|split; [|split]]].
  - by rewrite energy_objective_Q.
  - intros gamma. rewrite energy_build_Q. lia.
  - rewrite MaxCutFacts.maxcut_energy by done. lia.
  - by apply MaxCutFacts.length_cut_edges.
  - intros sample Hs -> Hlt. rewrite energy_objective_Q by done.
    by apply num_cut_edges_cut_size.
Qed.

Lemma penalty_minimum_iff_balanced_witness :
  let G := Examples.square_graph in
  let x := indicator [0; 1]%nat in
  0 < 80 ∧ NoDup (nodes G) ∧ Nat.Even (length (nodes G)) ∧ binary_on (nodes G) x ∧
  ((∀ y, binary_on (nodes G) y →
         energy (penalty_Q 80 G) x ≤ energy (penalty_Q 80 G) y)
   ↔ xsum x (nodes G) = floor_half (length (nodes G))).
Proof.
  intros G x.
  assert (0 < 80) as Hg by lia.
  assert (NoDup (nodes G)) as Hnd by (apply (bool_decide_unpack _); vm_compute; exact I).
  assert (Nat.Even (length (nodes G))) as Hev by (exists 2%nat; reflexivity).
  assert (binary_on (nodes G) x) as Hx by apply indicator_binary.
  repeat (split; [assumption|]).
  exact (penalty_minimum_iff_balanced 80 G x Hg Hnd Hev Hx).
Defined.

(** With [gamma = 80] on four nodes, the balanced assignment that selects
    nodes 0 and 1 has penalty energy [-320], not [0]. *)
Lemma penalty_balanced_not_zero :
  let G := Examples.square_graph in
  let x := indicator [0; 1]%nat in
  binary_on (nodes G) x ∧
  ¬ ((xsum x (nodes G) = floor_half (length (nodes G)) →
      energy (penalty_Q 80 G) x = 0) ∧
     (xsum x (nodes G) ≠ floor_half (length (nodes G)) →
      0 < energy (penalty_Q 80 G) x)).
Proof.
  intros G x. split; [apply indicator_binary|].
  intros [H _]. specialize (H eq_refl). vm_compute in H. discriminate H.
Qed.

Lemma penalty_value_witness :
  let G := Examples.square_graph in
  let x := indicator [0; 1]%nat in
  0 < 80 ∧ Nat.Even (length (nodes G)) ∧ binary_on (nodes G) x ∧
  energy (penalty_Q 80 G) x + 80 * 2 * 2 = 80 * (2 - 2) * (2 - 2) ∧
  (2 = 2 → energy (penalty_Q 80 G) x = - (80 * 2 * 2)) ∧
  (2 ≠ 2 → - (80 * 2 * 2) < energy (penalty_Q 80 G) x).
Proof.
  intros G x.
  assert (0 < 80) as Hg by lia.
  assert (Nat.Even (length (nodes G))) as Hev by (exists 2%nat; reflexivity).
  assert (binary_on (nodes G) x) as Hx by apply indicator_binary.
  repeat (split; [assumption|]).
  exact (penalty_value 80 G x Hg Hev Hx).
Defined.

(** On the five-node instance of the max-cut notebook the sample
    [{1: 1, 2: 0, 3: 0, 4: 1, 5: 1}] cuts 5 edges while the energy of the
    encoder's map is [-5]. *)
Lemma maxcut_energy_is_not_cut_count :
  let G := MaxCut.five_node_graph in
  let x := MaxCut.best_sample in
  binary_on (endpoints G) x ∧
  cut_size x (edges G) = 5 ∧
  energy (MaxCut.build_Q G) x = -5 ∧
  ¬ (cut_size x (edges G) = energy (MaxCut.build_Q G) x).
Proof.
  intros G x. split; [apply indicator_binary|].
  split; [by vm_compute|]. split; [by vm_compute|].
  vm_compute. discriminate.
Qed.

Lemma cut_count_vs_objective_energy_witness :
  let G := Examples.square_graph in
  let x := assignment [1; 1; 0; 0] in
  binary_on (endpoints G) x ∧
  cut_size x (edges G) = energy (objective_Q G) x ∧
  (∀ gamma, energy (objective_Q G) x
            = energy (build_Q gamma G) x - energy (penalty_Q gamma G) x) ∧
  cut_size x (edges G) = - energy (MaxCut.build_Q G) x ∧
  Z.of_nat (length (MaxCut.cut_edges G x)) = cut_size x (edges G) ∧
  (∀ sample, sample_of G sample → x = assignment sample →
     cut_size x (edges G) < 128 →
     num_cut_edges G sample = Some (energy (objective_Q G) x)).
Proof.
  intros G x.
  assert (binary_on (endpoints G) x) as Hx
    by (apply assignment_binary; repeat constructor; auto).
  split; [assumption|].
  exact (cut_count_vs_objective_energy G x Hx).
Defined.

(** *** The partition-size check *)

Lemma floor_half_spec n : floor_half n = Z.of_nat (n / 2).
Proof. unfold floor_half. by rewrite Nat2Z.inj_div. Qed.

Lemma ceil_half_spec n : ceil_half n = Z.of_nat ((n + 1) / 2).
Proof.
  unfold ceil_half. rewrite Nat2Z.inj_div, Nat2Z.inj_add. simpl (Z.of_nat 1).
  simpl (Z.of_nat 2).
  pose proof (Z.div_mod (- Z.of_nat n) 2 ltac:(lia)).
  pose proof (Z.mod_pos_bound (- Z.of_nat n) 2 ltac:(lia)).
  pose proof (Z.div_mod (Z.of_nat n + 1) 2 ltac:(lia)).
  pose proof (Z.mod_pos_bound (Z.of_nat n + 1) 2 ltac:(lia)).
  lia.
Qed.

(** On a binary sample the entries add up to the number of variables
    set to 1; [sum(sample)] is that number reduced to [int8]. *)
Lemma foldr_add_ones sample :
  Forall (λ v, v = 0 ∨ v = 1) sample → foldr Z.add 0 sample = ones sample.
Proof.
  unfold ones. induction 1 as [|v sample Hv _ IH]; [done|].
  cbn [foldr]. rewrite IH, filter_cons.
  destruct Hv as [-> | ->].
  - rewrite decide_False by done. lia.
  - rewrite decide_True by done. cbn [length]. lia.
Qed.

Lemma sum_sample_from sample a :
  foldl (λ acc v, int8 (acc + v)) (int8 a) sample = int8 (a + foldr Z.add 0 sample).
Proof.
  revert a. induction sample as [|v sample IH]; intros a.
  - simpl. f_equal. lia.
  - cbn [foldl foldr]. rewrite NumericFacts.int8_add_l, IH. f_equal. lia.
Qed.

Lemma sum_sample_int8 sample : sum_sample sample = int8 (foldr Z.add 0 sample).
Proof.
  unfold sum_sample. change 0 with (int8 0) at 1. by rewrite sum_sample_from.
Qed.

Lemma sum_sample_ones sample :
  Forall (λ v, v = 0 ∨ v = 1) sample → sum_sample sample = int8 (ones sample).
Proof. intros Hb. by rewrite sum_sample_int8, foldr_add_ones. Qed.

Lemma ones_bounds sample : 0 ≤ ones sample ≤ Z.of_nat (length sample).
Proof. unfold ones. pose proof (length_filter (λ v, v = 1) sample). lia. Qed.

Lemma halves_below_128 n :
  (n < 255)%nat → 0 ≤ floor_half n ≤ ceil_half n ∧ ceil_half n ≤ 127.
Proof.
  intros Hn. rewrite floor_half_spec, ceil_half_spec.
  assert ((n + 1) / 2 < 128)%nat by (apply Nat.Div0.div_lt_upper_bound; lia).
  assert (n / 2 ≤ (n + 1) / 2)%nat by (apply Nat.Div0.div_le_mono; lia).
  lia.
Qed.

(** With fewer than 255 nodes both accepted sizes fit in [int8], and a
    wrapped count is negative: the size test is exact. *)
Lemma size_test_exact G sample :
  sample_of G sample → (length (nodes G) < 255)%nat →
  sum_sample sample ∈ [floor_half (length (nodes G)); ceil_half (length (nodes G))]
  ↔ ones sample = floor_half (length (nodes G)) ∨ ones sample = ceil_half (length (nodes G)).
Proof.
  intros (Hlen & Hb & _) Hn. rewrite sum_sample_ones by done.
  pose proof (halves_below_128 _ Hn) as Hh.
  pose proof (ones_bounds sample) as Ho. rewrite Hlen in Ho.
  rewrite !elem_of_cons, elem_of_nil. split.
  - intros Hin.
    assert (0 ≤ int8 (ones sample)) as Hpos by (destruct Hin as [->|[->|[]]]; lia).
    rewrite NumericFacts.int8_nonneg_exact in Hin by lia. tauto.
  - intros Hy. rewrite NumericFacts.int8_small by lia. tauto.
Qed.

Lemma check_partition_valid G sample :
  sample_of G sample → (length (nodes G) < 255)%nat →
  ones sample = floor_half (length (nodes G)) ∨ ones sample = ceil_half (length (nodes G)) →
  check_partition G sample
  = Some (ValidPartition (int8 (cut_size (assignment sample) (edges G)))).
Proof.
  intros Hs Hn Hy. unfold check_partition.
  rewrite num_cut_edges_int8 by done.
  rewrite decide_True; [done|]. by apply size_test_exact.
Qed.

Lemma check_partition_invalid G sample :
  sample_of G sample → (length (nodes G) < 255)%nat →
  ¬ (ones sample = floor_half (length (nodes G)) ∨ ones sample = ceil_half (length (nodes G))) →
  check_partition G sample = Some InvalidPartition.
Proof.
  intros Hs Hn Hy. unfold check_partition.
  rewrite decide_False; [done|]. by rewrite size_test_exact.
Qed.

Lemma path41_sample k : (k ≤ 41)%nat → sample_of Examples.path41 (Examples.sample_with k).
Proof.
  intros Hk. unfold sample_of, Examples.sample_with, Examples.path41; cbn [nodes edges].
  rewrite length_app, !length_replicate, length_seq.
  split; [lia|]. split.
  - apply Forall_app. split; apply Forall_replicate; auto.
  - apply Forall_fmap, Forall_forall. intros i [_ Hi]%elem_of_seq. simpl. lia.
Qed.

(** The four sample sizes of the 41-node instance, evaluated. *)
Example path41_sizes :
  check_partition Examples.path41 (Examples.sample_with 20) = Some (ValidPartition 1) ∧
  check_partition Examples.path41 (Examples.sample_with 21) = Some (ValidPartition 1) ∧
  check_partition Examples.path41 (Examples.sample_with 19) = Some InvalidPartition ∧
  check_partition Examples.path41 (Examples.sample_with 22) = Some InvalidPartition.
Proof. repeat split; by vm_compute. Qed.

Lemma sample_of_closed G sample :
  bool_decide (length sample = length (nodes G)) = true →
  forallb (λ v, bool_decide (v = 0 ∨ v = 1)) sample = true →
  forallb (λ e, bool_decide ((e.1 < length sample)%nat ∧ (e.2 < length sample)%nat))
          (edges G) = true →
  sample_of G sample.
Proof.
  intros H1%bool_decide_eq_true H2 H3. split; [done|]. split.
  - apply Forall_forall. intros v Hv.
    rewrite forallb_forall in H2.
    eapply bool_decide_eq_true_1, H2. by apply list_elem_of_In.
  - apply Forall_forall. intros e He.
    rewrite forallb_forall in H3.
    eapply bool_decide_eq_true_1, (H3 e). by apply list_elem_of_In.
Qed.

(** C5, where the interpreter departs from it. The sample row is [int8]
    and so are [sum(sample)] and the cut counter. On the 256-node path
    with its first 128 nodes in subset 1 the number of ones is
    [floor(256/2)], yet [sum(sample)] is [-128] and the interpreter
    reports an invalid partition. On the 32-node graph whose 128 edges are
    all cut by the balanced sample, the interpreter reports a valid
    partition with [-128] cut edges. *)
Theorem check_partition_wraps :
  let G := Examples.path256 in
  let sample := Examples.half_of_256 in
  let G' := Examples.bipartite32 in
  let sample' := Examples.half_of_32 in
  (sample_of G sample ∧
   ones sample = floor_half (length (nodes G)) ∧
   sum_sample sample = -128 ∧
   check_partition G sample = Some InvalidPartition) ∧
  (sample_of G' sample' ∧
   ones sample' = floor_half (length (nodes G')) ∧
   Z.of_nat (length (MaxCut.cut_edges G' (assignment sample'))) = 128 ∧
   check_partition G' sample' = Some (ValidPartition (-128))).
Proof.
  intros G sample G' sample'. split.
  - split; [by apply sample_of_closed; vm_compute|].
    split; [by vm_compute|]. split; by vm_compute.
  - split; [by apply sample_of_closed; vm_compute|].
    split; [by vm_compute|]. split; by vm_compute.
Qed.

(** *** Which keys the loops touch, and how often *)

Lemma contrib_cons k t ts :
  contrib k (t :: ts) = (if decide (t.1 = k) then t.2 else 0) + contrib k ts.
Proof. reflexivity. Qed.

(** A run that adds the same amount once to each key of a duplicate-free
    list. *)
Lemma contrib_const k c (ps : list key) :
  NoDup ps →
  contrib k ((λ p, (p, c)) <$> ps) = if decide (k ∈ ps) then c else 0.
Proof.
  induction 1 as [|p ps Hp Hnd IH]; [done|].
  rewrite fmap_cons, contrib_cons, IH. cbn [fst snd].
  destruct (decide (p = k)) as [->|Hne].
  - rewrite decide_False by done. rewrite decide_True by by left. lia.
  - destruct (decide (k ∈ ps)) as [Hin|Hin].
    + rewrite decide_True by by right. lia.
    + rewrite decide_False; [lia|]. apply not_elem_of_cons. split; [congruence|done].
Qed.

Lemma elem_of_combinations u v l :
  (u, v) ∈ combinations l → u ∈ l ∧ v ∈ l.
Proof.
  induction l as [|a l IH]; cbn [combinations]; [by intros ?%elem_of_nil|].
  rewrite elem_of_app. intros [Hrow|Hrest].
  - apply list_elem_of_fmap in Hrow as (y & [= -> ->] & Hy). split; [by left|by right].
  - destruct (IH Hrest). split; by right.
Qed.

Lemma NoDup_combinations l : NoDup l → NoDup (combinations l).
Proof.
  induction 1 as [|a l Ha Hnd IH]; cbn [combinations]; [constructor|].
  apply NoDup_app. split; [|split; [|done]].
  - apply NoDup_fmap_2; [|done]. by intros ?? [=].
  - intros [u v] Hrow Hrest.
    apply list_elem_of_fmap in Hrow as (y & [= -> ->] & Hy).
    by apply elem_of_combinations in Hrest as [? _].
Qed.

Lemma elem_of_combinations_seq u v a n :
  (u, v) ∈ combinations (seq a n) ↔ (a ≤ u)%nat ∧ (u < v)%nat ∧ (v < a + n)%nat.
Proof.
  revert a. induction n as [|n IH]; intros a; cbn [seq combinations].
  - rewrite elem_of_nil. lia.
  - rewrite elem_of_app, IH, list_elem_of_fmap. split.
    + intros [(y & [= -> ->] & Hy%elem_of_seq)|?]; lia.
    + intros (Hau & Huv & Hv). destruct (decide (u = a)) as [->|Hne].
      * left. exists v. split; [done|]. apply elem_of_seq. lia.
      * right. lia.
Qed.

Lemma length_filter_eq_NoDup (k : key) (es : list key) :
  NoDup es → k ∈ es → length (filter (λ e, e = k) es) = 1%nat.
Proof.
  induction 1 as [|e es He Hnd IH]; intros Hk; [by apply elem_of_nil in Hk|].
  rewrite filter_cons. destruct (decide (e = k)) as [->|Hne].
  - cbn [length]. f_equal.
    destruct (filter (λ e, e = k) es) as [|e' l] eqn:Hf; [done|]. exfalso.
    assert (e' ∈ filter (λ e, e = k) es) as Hin by (rewrite Hf; by left).
    apply list_elem_of_filter in Hin as [-> Hin]. done.
  - apply elem_of_cons in Hk as [->|Hk]; [done|]. by apply IH.
Qed.

Lemma contrib_objective_offdiag es u v :
  u ≠ v →
  contrib (u, v) (objective_terms es)
  = -2 * Z.of_nat (length (filter (λ e, e = (u, v)) es)).
Proof.
  intros Huv. induction es as [|[a b] es IH]; [done|].
  change (objective_terms ((a, b) :: es))
    with ([((a, a), 1); ((b, b), 1); ((a, b), -2)] ++ objective_terms es).
  rewrite contrib_app, IH, filter_cons. rewrite !contrib_cons. cbn [fst snd contrib foldr].
  rewrite (decide_False (P := (a, a) = (u, v))) by (intros [= -> ->]; done).
  rewrite (decide_False (P := (b, b) = (u, v))) by (intros [= -> ->]; done).
  destruct (decide ((a, b) = (u, v))) as [Heq|Hne]; cbn [length]; lia.
Qed.

Lemma contrib_objective_diag es i :
  (∀ u v, (u, v) ∈ es → u ≠ v) →
  contrib (i, i) (objective_terms es)
  = Z.of_nat (length (filter (λ e, e.1 = i ∨ e.2 = i) es)).
Proof.
  induction es as [|[a b] es IH]; intros Hloop; [done|].
  change (objective_terms ((a, b) :: es))
    with ([((a, a), 1); ((b, b), 1); ((a, b), -2)] ++ objective_terms es).
  rewrite contrib_app, IH, filter_cons by (intros; apply Hloop; by right).
  rewrite !contrib_cons. cbn [fst snd contrib foldr].
  assert (a ≠ b) as Hab by (apply Hloop; by left).
  rewrite (decide_False (P := (a, b) = (i, i))) by (intros [= -> ->]; done).
  destruct (decide (a = i)) as [->|Ha].
  - rewrite (decide_True (P := (i, i) = (i, i))) by done.
    rewrite (decide_True (P := _ ∨ _)) by by left.
    rewrite (decide_False (P := (b, b) = (i, i))) by (intros [= ->]; done).
    cbn [length]. lia.
  - rewrite (decide_False (P := (a, a) = (i, i))) by (intros [= ->]; done).
    destruct (decide (b = i)) as [->|Hb].
    + rewrite (decide_True (P := (i, i) = (i, i))) by done.
      rewrite (decide_True (P := _ ∨ _)) by by right.
      cbn [length]. lia.
    + rewrite (decide_False (P := (b, b) = (i, i))) by (intros [= ->]; done).
      rewrite (decide_False (P := _ ∨ _)) by (cbn; tauto). lia.
Qed.

Lemma linear_terms_keys gamma n ns :
  linear_terms gamma n ns
  = (λ p, (p, gamma * (1 - Z.of_nat n))) <$> ((λ i, (i, i)) <$> ns).
Proof. unfold linear_terms. by rewrite <- list_fmap_compose. Qed.

Lemma NoDup_diagonal (ns : list nat) : NoDup ns → NoDup ((λ i, (i, i)) <$> ns).
Proof. intros Hnd. apply NoDup_fmap_2; [|done]. by intros ?? [=]. Qed.

(** The coefficient the built map holds for any key. *)
Lemma coeff_build_Q gamma G k :
  NoDup (nodes G) →
  coeff (build_Q gamma G) k
  = contrib k (objective_terms (edges G))
    + (if decide (k ∈ (λ i, (i, i)) <$> nodes G)
       then gamma * (1 - Z.of_nat (length (nodes G))) else 0)
    + (if decide (k ∈ combinations (nodes G)) then 2 * gamma else 0).
Proof.
  intros Hnd. rewrite build_Q_terms, coeff_add_terms, !contrib_app.
  rewrite linear_terms_keys, contrib_const by by apply NoDup_diagonal.
  unfold pair_terms. rewrite contrib_const by by apply NoDup_combinations.
  rewrite coeff_empty. lia.
Qed.

Lemma coeff_objective_Q G k :
  coeff (objective_Q G) k = contrib k (objective_terms (edges G)).
Proof.
  unfold objective_Q. rewrite add_objective_terms, coeff_add_terms.
  rewrite coeff_empty. lia.
Qed.

Lemma coeff_penalty_Q gamma G k :
  NoDup (nodes G) →
  coeff (penalty_Q gamma G) k
  = (if decide (k ∈ (λ i, (i, i)) <$> nodes G)
     then gamma * (1 - Z.of_nat (length (nodes G))) else 0)
    + (if decide (k ∈ combinations (nodes G)) then 2 * gamma else 0).
Proof.
  intros Hnd. rewrite penalty_Q_terms, coeff_add_terms, !contrib_app.
  rewrite linear_terms_keys, contrib_const by by apply NoDup_diagonal.
  unfold pair_terms. rewrite contrib_const by by apply NoDup_combinations.
  rewrite coeff_empty. lia.
Qed.

Lemma elem_of_combinations_before u v l :
  (u, v) ∈ combinations l ↔ before l u v.
Proof.
  induction l as [|x l IH]; cbn [combinations].
  - rewrite elem_of_nil. split; [done|]. by intros (a & b & _ & [=] & _).
  - rewrite elem_of_app, IH, list_elem_of_fmap. split.
    + intros [(y & [= -> ->] & (j & Hj)%list_elem_of_lookup)|(a & b & Hab & Ha & Hb)].
      * exists 0%nat, (S j). split; [lia|]. by split.
      * exists (S a), (S b). split; [lia|]. by split.
    + intros (a & b & Hab & Ha & Hb).
      destruct b as [|b]; [lia|]. cbn in Hb. destruct a as [|a].
      * injection Ha as ->. left. exists v. split; [done|].
        by eapply list_elem_of_lookup_2.
      * right. exists a, b. split; [lia|]. by split.
Qed.

Lemma before_ne l u v : NoDup l → before l u v → u ≠ v.
Proof.
  intros Hnd (a & b & Hab & Ha & Hb) ->.
  pose proof (NoDup_lookup l a b v Hnd Ha Hb). lia.
Qed.

Lemma gnp_simple G : gnp_shaped G → simple_graph G.
Proof.
  intros (Hseq & Hes & Hlt). split; [rewrite Hseq; apply NoDup_seq|]. split; [done|].
  intros u v [Hu Hv]%Hlt. exists u, v. split; [done|].
  rewrite Hseq. split; apply lookup_seq; lia.
Qed.

Lemma not_diagonal (u v : nat) (ns : list nat) :
  u ≠ v → (u, v) ∉ (λ i, (i, i)) <$> ns.
Proof. intros Huv (i & [= -> ->] & _)%list_elem_of_fmap. done. Qed.

Lemma coeff_edge gamma G u v :
  simple_graph G → (u, v) ∈ edges G →
  coeff (objective_Q G) (u, v) = -2 ∧
  coeff (penalty_Q gamma G) (u, v) = 2 * gamma ∧
  coeff (build_Q gamma G) (u, v) = -2 + 2 * gamma.
Proof.
  intros (Hnd & Hes & Hbef) Huv.
  pose proof (before_ne _ _ _ Hnd (Hbef u v Huv)) as Hne.
  assert (contrib (u, v) (objective_terms (edges G)) = -2) as Hobj.
  { rewrite contrib_objective_offdiag by done.
    rewrite length_filter_eq_NoDup by done. lia. }
  assert ((u, v) ∈ combinations (nodes G)) as Hcomb
    by (apply elem_of_combinations_before; by apply Hbef).
  assert ((u, v) ∉ (λ i, (i, i)) <$> nodes G) as Hdiag by by apply not_diagonal.
  rewrite coeff_objective_Q, coeff_penalty_Q, coeff_build_Q by done.
  rewrite Hobj, !(decide_True (P := _ ∈ combinations _)) by done.
  rewrite !(decide_False (P := _ ∈ _ <$> _)) by done. lia.
Qed.

Lemma coeff_node gamma G i :
  simple_graph G → i ∈ nodes G →
  coeff (build_Q gamma G) (i, i)
  = degree G i + gamma * (1 - Z.of_nat (length (nodes G))).
Proof.
  intros (Hnd & Hes & Hbef) Hi.
  rewrite coeff_build_Q by done.
  rewrite contrib_objective_diag
    by (intros u v Huv; by eapply before_ne, Hbef).
  rewrite decide_True by by apply (list_elem_of_fmap_2 (λ i, (i, i))).
  rewrite decide_False; [unfold degree; lia|].
  intros Hc%elem_of_combinations_before. by eapply before_ne.
Qed.

(** The keys of the built map are the keys its statements name. *)
Lemma objective_terms_keys es k :
  k ∈ (objective_terms es).*1
  ↔ ∃ u v, (u, v) ∈ es ∧ (k = (u, u) ∨ k = (v, v) ∨ k = (u, v)).
Proof.
  unfold objective_terms. rewrite list_elem_of_fmap. split.
  - intros ([k' c] & -> & ([u v] & Hin & Huv)%list_elem_of_bind).
    exists u, v. split; [done|]. cbn [fst snd] in Hin.
    rewrite !elem_of_cons, elem_of_nil in Hin.
    destruct Hin as [[= -> _]|[[= -> _]|[[= -> _]|[]]]]; auto.
  - intros (u & v & Huv & Hk).
    destruct Hk as [->|[->| ->]].
    + exists ((u, u), 1). split; [done|]. apply list_elem_of_bind.
      exists (u, v). split; [|done]. cbn. rewrite !elem_of_cons. auto.
    + exists ((v, v), 1). split; [done|]. apply list_elem_of_bind.
      exists (u, v). split; [|done]. cbn. rewrite !elem_of_cons. auto.
    + exists ((u, v), -2). split; [done|]. apply list_elem_of_bind.
      exists (u, v). split; [|done]. cbn. rewrite !elem_of_cons. auto.
Qed.

Lemma linear_terms_fst gamma n ns :
  (linear_terms gamma n ns).*1 = (λ i, (i, i)) <$> ns.
Proof. unfold linear_terms. by rewrite <- list_fmap_compose. Qed.

Lemma pair_terms_fst gamma ns : (pair_terms gamma ns).*1 = combinations ns.
Proof.
  unfold pair_terms. rewrite <- list_fmap_compose.
  induction (combinations ns) as [|p ps IH]; [done|]. cbn. by rewrite IH.
Qed.

Lemma elem_of_dom_build_Q gamma G k :
  k ∈ dom (build_Q gamma G)
  ↔ (∃ u v, (u, v) ∈ edges G ∧ (k = (u, u) ∨ k = (v, v) ∨ k = (u, v)))
    ∨ k ∈ (λ i, (i, i)) <$> nodes G
    ∨ k ∈ combinations (nodes G).
Proof.
  rewrite build_Q_terms, dom_add_terms, dom_empty_L, (right_id_L ∅ (∪)).
  rewrite elem_of_list_to_set, !fmap_app, !elem_of_app.
  by rewrite objective_terms_keys, linear_terms_fst, pair_terms_fst.
Qed.

(** A first assignment to a key is the same as accumulating into it. *)
Lemma assign_fresh (k : nat * nat) (c : Z) (Q : gmap (nat * nat) Z) :
  Q !! k = None → assign k c Q = acc k c Q.
Proof. intros Hk. unfold assign, acc, coeff. rewrite Hk. simpl. f_equal. Qed.

(** C8. Every [+=] statement adds to the entry it names and leaves the
    others alone; a pair no statement names has coefficient 0 (it is not
    even a key); the built map is the sum of the contributions and does
    not depend on the order of the statements. For a simple graph the
    coefficient of an edge [(u,v)] ends as [-2 + 2*gamma] and that of a
    node [i] as [degree(i) + gamma*(1 - n)]. The literal maps of EX0 and
    of the toy problem write each key once, where assignment and
    accumulation coincide. *)
Theorem accumulation_invariant (gamma : Z) (G : Graph) :
  simple_graph G →
  let n := length (nodes G) in
  let terms := objective_terms (edges G) ++ linear_terms gamma n (nodes G)
               ++ pair_terms gamma (nodes G) in
  (∀ Q k c, coeff (acc k c Q) k = coeff Q k + c) ∧
  (∀ Q k k' c, k ≠ k' → coeff (acc k c Q) k' = coeff Q k') ∧
  build_Q gamma G = add_terms terms ∅ ∧
  (∀ k, coeff (build_Q gamma G) k = contrib k terms) ∧
  (∀ k, k ∉ terms.*1 → build_Q gamma G !! k = None ∧ coeff (build_Q gamma G) k = 0) ∧
  (∀ ts, ts ≡ₚ terms → add_terms ts ∅ = build_Q gamma G) ∧
  (∀ u v, (u, v) ∈ edges G → coeff (build_Q gamma G) (u, v) = -2 + 2 * gamma) ∧
  (∀ i, i ∈ nodes G →
        coeff (build_Q gamma G) (i, i) = degree G i + gamma * (1 - Z.of_nat n)) ∧
  (∀ Q k c, Q !! k = None → assign k c Q = acc k c Q) ∧
  Toy.toy_Q = Toy.toy_Q_accumulated ∧
  MaxCut.getting_started_Q = MaxCut.build_Q MaxCut.five_node_graph.
Proof.
  intros HG n terms.
  split; [intros; apply coeff_acc_eq|]. split; [intros; by apply coeff_acc_ne|].
  split; [apply build_Q_terms|].
  split; [intros k; by rewrite build_Q_terms, coeff_add_terms, coeff_empty|].
  split.
  { intros k Hk.
    assert (build_Q gamma G !! k = None) as Hnone.
    { apply not_elem_of_dom. rewrite build_Q_terms, dom_add_terms, dom_empty_L.
      rewrite (right_id_L ∅ (∪)), elem_of_list_to_set. done. }
    split; [done|]. unfold coeff. by rewrite Hnone. }
  split; [intros ts Hts; rewrite build_Q_terms; by apply add_terms_perm|].
  split; [intros u v Huv; by apply coeff_edge|].
  split; [intros i Hi; by apply coeff_node|].
  split; [intros; by apply assign_fresh|].
  split; by vm_compute.
Qed.

Lemma square_graph_shaped : gnp_shaped Examples.square_graph.
Proof.
  split; [reflexivity|]. split.
  - apply (bool_decide_unpack _). vm_compute. exact I.
  - intros u v Huv. unfold Examples.square_graph in *. cbn [edges nodes length] in *.
    rewrite !elem_of_cons, elem_of_nil in Huv.
    destruct Huv as [[= -> ->]|[[= -> ->]|[[= -> ->]|[[= -> ->]|[]]]]]; lia.
Qed.

Lemma accumulation_invariant_witness :
  simple_graph Examples.square_graph ∧
  coeff (build_Q 80 Examples.square_graph) (0, 1)%nat = -2 + 2 * 80 ∧
  coeff (build_Q 80 Examples.square_graph) (2, 2)%nat
  = degree Examples.square_graph 2 + 80 * (1 - 4).
Proof.
  split; [apply gnp_simple, square_graph_shaped|].
  destruct (accumulation_invariant 80 Examples.square_graph
              (gnp_simple _ square_graph_shaped))
    as (_ & _ & _ & _ & _ & _ & Hedge & Hnode & _).
  split.
  - apply Hedge. unfold Examples.square_graph; cbn [edges]. by left.
  - apply (Hnode 2%nat). unfold Examples.square_graph; cbn [nodes].
    rewrite !elem_of_cons. auto.
Defined.

(** C10. For a graph with nodes [0..n-1] in increasing order and every
    edge listed smaller endpoint first, every off-diagonal key [(i,j)] of
    the built map has [i < j]; each pair [i < j] of nodes is a key and its
    mirror [(j,i)] is not; so on an edge the objective contribution [-2]
    and the penalty contribution [2*gamma] meet in the one entry
    [(u,v)]. *)
Theorem keys_ordered (gamma : Z) (G : Graph) :
  gnp_shaped G →
  let n := length (nodes G) in
  (∀ i j, (i, j) ∈ dom (build_Q gamma G) → i ≠ j → (i < j)%nat) ∧
  (∀ i j, (i < j)%nat → (j < n)%nat →
          (i, j) ∈ dom (build_Q gamma G) ∧ (j, i) ∉ dom (build_Q gamma G)) ∧
  (∀ u v, (u, v) ∈ edges G →
          coeff (objective_Q G) (u, v) = -2 ∧
          coeff (penalty_Q gamma G) (u, v) = 2 * gamma ∧
          coeff (build_Q gamma G) (u, v)
          = coeff (objective_Q G) (u, v) + coeff (penalty_Q gamma G) (u, v) ∧
          build_Q gamma G !! (v, u) = None).
Proof.
  intros HG n.
  assert (∀ i j, (i, j) ∈ dom (build_Q gamma G) → i ≠ j → (i < j)%nat) as Hord.
  { intros i j Hin Hne. destruct HG as (Hseq & _ & Hlt).
    apply elem_of_dom_build_Q in Hin as [(u & v & Huv & Hk)|[Hdiag|Hcomb]].
    - destruct (Hlt u v Huv). destruct Hk as [[= -> ->]|[[= -> ->]|[= -> ->]]]; done.
    - by apply not_diagonal in Hdiag.
    - rewrite Hseq in Hcomb. apply elem_of_combinations_seq in Hcomb. lia. }
  split; [done|]. split.
  - intros i j Hij Hj. split.
    + apply elem_of_dom_build_Q. right; right. destruct HG as (-> & _ & _).
      apply elem_of_combinations_seq. fold n. lia.
    + intros Hin. apply Hord in Hin; lia.
  - intros u v Huv.
    destruct (coeff_edge gamma G u v (gnp_simple G HG) Huv) as (Ho & Hp & Hb).
    rewrite Ho, Hp, Hb. repeat split; try done.
    apply not_elem_of_dom. intros Hin.
    destruct HG as (_ & _ & Hlt). destruct (Hlt u v Huv).
    apply Hord in Hin; lia.
Qed.

Lemma keys_ordered_witness :
  gnp_shaped Examples.square_graph ∧
  (0, 3)%nat ∈ dom (build_Q 80 Examples.square_graph) ∧
  (3, 0)%nat ∉ dom (build_Q 80 Examples.square_graph).
Proof.
  split; [apply square_graph_shaped|].
  destruct (keys_ordered 80 Examples.square_graph square_graph_shaped)
    as (_ & Hpair & _).
  apply Hpair; cbn; lia.
Defined.

End PartitionFacts.

(** ** The knapsack model and the parsing of its samples *)

Module KnapsackFacts.
Import Qubo QuboFacts Numeric Knapsack.

(** *** Sums that stay exact in [float64] *)

Lemma abs_total_at_cons series i S :
  abs_total_at series (i :: S) = Z.abs (default 0 (series !! i)) + abs_total_at series S.
Proof. reflexivity. Qed.

Lemma abs_total_at_nonneg series S : 0 ≤ abs_total_at series S.
Proof. induction S as [|i S IH]; [done|]. rewrite abs_total_at_cons. lia. Qed.

Lemma abs_total_at_elem series S i :
  i ∈ S → Z.abs (default 0 (series !! i)) ≤ abs_total_at series S.
Proof.
  induction S as [|j S IH]; [by intros ?%elem_of_nil|].
  rewrite abs_total_at_cons. pose proof (abs_total_at_nonneg series S).
  intros [->|Hi%IH]%elem_of_cons; lia.
Qed.

Lemma foldr_add_ext (f h : nat → Z) (S : list nat) :
  (∀ i, i ∈ S → f i = h i) →
  foldr (λ i s, f i + s) 0 S = foldr (λ i s, h i + s) 0 S.
Proof.
  induction S as [|i S IH]; intros Hfh; [done|].
  cbn [foldr]. rewrite (Hfh i) by left. rewrite IH; [done|].
  intros j Hj. apply Hfh. by right.
Qed.

Lemma abs_terms_nonneg (b x : nat → Z) (l : list nat) :
  0 ≤ foldr (λ i s, Z.abs (b i * x i) + s) 0 l.
Proof. induction l as [|i l IH]; [done|]. cbn [foldr]. lia. Qed.

(** While the magnitudes met on the way stay below [2^53], every rounded
    product and sum is the exact one. *)
Lemma energy_fold_exact (b x : nat → Z) (l : list nat) (e : Z) :
  Z.abs e + foldr (λ i s, Z.abs (b i * x i) + s) 0 l < 2 ^ 53 →
  foldl (λ e i, f64 (e + f64 (b i * x i))) e l = e + wsum b x l.
Proof.
  revert e. induction l as [|i l IH]; intros e Hb.
  - cbn. lia.
  - cbn [foldr] in Hb. pose proof (abs_terms_nonneg b x l).
    cbn [foldl]. rewrite (NumericFacts.f64_small (b i * x i)) by lia.
    rewrite (NumericFacts.f64_small (e + b i * x i)) by lia.
    rewrite IH by lia. rewrite wsum_cons. lia.
Qed.

Lemma energy_fold_ext (b x y : nat → Z) (l : list nat) (e : Z) :
  (∀ i, i ∈ l → x i = y i) →
  foldl (λ e i, f64 (e + f64 (b i * x i))) e l
  = foldl (λ e i, f64 (e + f64 (b i * y i))) e l.
Proof.
  revert e. induction l as [|i l IH]; intros e Hxy; [done|].
  cbn [foldl]. rewrite (Hxy i) by left. apply IH. intros j Hj. apply Hxy. by right.
Qed.

(** The energy reads the assignment at the variables of the model only. *)
Lemma bqm_energy_ext m x y :
  (∀ i, i ∈ variables m → x i = y i) → bqm_energy m x = bqm_energy m y.
Proof. apply energy_fold_ext. Qed.

Lemma abs_terms_indicator (b : nat → Z) S l :
  foldr (λ i s, Z.abs (b i * indicator S i) + s) 0 l
  = wsum (λ i, Z.abs (b i)) (indicator S) l.
Proof.
  induction l as [|i l IH]; [done|].
  cbn [foldr]. rewrite wsum_cons, IH.
  unfold indicator at 1 3. case_decide; lia.
Qed.

(** A model at the indicator vector of a set of its variables. *)
Lemma bqm_energy_indicator m S :
  NoDup S → NoDup (variables m) → (∀ i, i ∈ S → i ∈ variables m) →
  Z.abs (offset m) + foldr (λ i s, Z.abs (bias_of m i) + s) 0 S < 2 ^ 53 →
  bqm_energy m (indicator S) = offset m + foldr (λ i s, bias_of m i + s) 0 S.
Proof.
  intros HS Hv Hin Hb. unfold bqm_energy.
  rewrite energy_fold_exact.
  - by rewrite wsum_indicator.
  - rewrite abs_terms_indicator.
    by rewrite (wsum_indicator (λ i, Z.abs (bias_of m i))).
Qed.

(** *** The model the loop builds *)

Lemma loop_S values weights k :
  loop values weights (S k) = encode_step values weights (loop values weights k) k.
Proof. unfold loop. by rewrite seq_S, foldl_app. Qed.

Lemma encode_step_None values weights i : encode_step values weights None i = None.
Proof. reflexivity. Qed.

Lemma loop_is_Some values weights k :
  (k ≤ length values)%nat →
  is_Some (loop values weights k) ↔ (k ≤ length weights)%nat.
Proof.
  induction k as [|k IH]; intros Hk.
  - split; [lia|]. intros _. by eexists.
  - rewrite loop_S. specialize (IH ltac:(lia)).
    destruct (lookup_lt_is_Some_2 values k) as [v Hv]; [lia|].
    destruct (loop values weights k) as [s|] eqn:Hloop.
    + unfold encode_step. cbn [mbind option_bind]. rewrite Hv. cbn [mbind option_bind].
      destruct (weights !! k) as [w|] eqn:Hw; cbn [mbind option_bind].
      * apply lookup_lt_Some in Hw. split; [lia|by eexists].
      * apply lookup_ge_None in Hw. split; [by intros [? [=]]|lia].
    + rewrite encode_step_None. split; [by intros [? [=]]|].
      intros Hle. assert (is_Some (@None (BQM * BQM))) as [? [=]].
      apply IH. lia.
Qed.

(** Setting the bias of a fresh variable [k] of a model on [0..k-1]. *)
Lemma set_linear_fresh k b m :
  variables m = seq 0 k → linear m !! k = None →
  variables (set_linear k b (add_variable k m)) = seq 0 (S k) ∧
  linear (set_linear k b (add_variable k m)) = <[k := f64 b]> (linear m) ∧
  offset (set_linear k b (add_variable k m)) = offset m.
Proof.
  intros Hv Hk. unfold set_linear, add_variable. cbn [variables linear offset].
  rewrite Hv. rewrite (decide_False (P := k ∈ seq 0 k)) by (rewrite elem_of_seq; lia).
  rewrite (decide_True (P := k ∈ seq 0 k ++ [k]))
    by (apply elem_of_app; right; by left).
  rewrite !insert_insert_eq, seq_S. done.
Qed.

(** Both models after the first [k] items. *)
Lemma loop_state values weights k :
  (k ≤ length values)%nat → (k ≤ length weights)%nat →
  ∃ obj con,
    loop values weights k = Some (obj, con) ∧
    variables obj = seq 0 k ∧ offset obj = 0 ∧
    variables con = seq 0 k ∧ offset con = 0 ∧
    (∀ i, linear obj !! i
          = if decide (i < k)%nat then (λ v, f64 (int64 (- v))) <$> values !! i else None) ∧
    (∀ i, linear con !! i = if decide (i < k)%nat then f64 <$> weights !! i else None).
Proof.
  induction k as [|k IH]; intros Hv Hw.
  - exists empty_bqm, empty_bqm. repeat split; done.
  - destruct IH as (obj & con & Hloop & Hvo & Ho & Hvc & Hc & Hlin & Hlin'); [lia..|].
    destruct (lookup_lt_is_Some_2 values k) as [v Hvk]; [lia|].
    destruct (lookup_lt_is_Some_2 weights k) as [w Hwk]; [lia|].
    rewrite loop_S, Hloop. unfold encode_step. cbn [mbind option_bind].
    rewrite Hvk, Hwk. cbn [mbind option_bind fst snd].
    eexists _, _. split; [reflexivity|].
    destruct (set_linear_fresh k (int64 (- v)) obj Hvo) as (-> & -> & ->);
      [rewrite Hlin; by rewrite decide_False by lia|].
    destruct (set_linear_fresh k w con Hvc) as (-> & -> & ->);
      [rewrite Hlin'; by rewrite decide_False by lia|].
    repeat split; try done.
    + intros i. destruct (decide (i = k)) as [->|Hne].
      * rewrite lookup_insert_eq, decide_True by lia. by rewrite Hvk.
      * rewrite lookup_insert_ne, Hlin by done.
        destruct (decide (i < k)%nat); [by rewrite decide_True by lia|].
        by rewrite decide_False by lia.
    + intros i. destruct (decide (i = k)) as [->|Hne].
      * rewrite lookup_insert_eq, decide_True by lia. by rewrite Hwk.
      * rewrite lookup_insert_ne, Hlin' by done.
        destruct (decide (i < k)%nat); [by rewrite decide_True by lia|].
        by rewrite decide_False by lia.
Qed.

(** What a successful [encode] has built. *)
Lemma encode_Some_shape values weights max_weight cqm :
  encode values weights max_weight = Some cqm →
  (length values ≤ length weights)%nat ∧
  capacity_rhs cqm = f64 max_weight ∧
  variables (objective cqm) = seq 0 (length values) ∧ offset (objective cqm) = 0 ∧
  variables (capacity_lhs cqm) = seq 0 (length values) ∧ offset (capacity_lhs cqm) = 0 ∧
  (∀ i, linear (objective cqm) !! i = (λ v, f64 (int64 (- v))) <$> values !! i) ∧
  (∀ i, linear (capacity_lhs cqm) !! i
        = if decide (i < length values)%nat then f64 <$> weights !! i else None).
Proof.
  unfold encode. intros Henc.
  assert (length values ≤ length weights)%nat as Hlen.
  { apply (loop_is_Some values weights (length values)); [done|].
    destruct (loop values weights (length values)); [by eexists|discriminate Henc]. }
  destruct (loop_state values weights (length values))
    as (obj & con & Hloop & Hvo & Ho & Hvc & Hc & Hlin & Hlin'); [lia..|].
  rewrite Hloop in Henc. cbn [mbind option_bind fst snd] in Henc.
  injection Henc as <-. cbn [objective capacity_lhs capacity_rhs].
  repeat (split; [done|]). split; [|done].
  intros i. rewrite Hlin. case_decide as Hi; [done|].
  by rewrite lookup_ge_None_2 by lia.
Qed.

Lemma encode_is_Some values weights max_weight :
  (length values ≤ length weights)%nat →
  ∃ cqm, encode values weights max_weight = Some cqm.
Proof.
  intros Hlen. unfold encode.
  destruct (loop_state values weights (length values)) as (obj & con & -> & _); [lia..|].
  by eexists.
Qed.

(** A value below [2^53] in magnitude is kept as it is, negated. *)
Lemma stored_neg_value v : Z.abs v < 2 ^ 53 → f64 (int64 (- v)) = - v.
Proof.
  intros Hv. assert (2 ^ 53 < 2 ^ 63) by done.
  rewrite NumericFacts.int64_small by lia. apply NumericFacts.f64_small. lia.
Qed.

Lemma objective_bias values weights max_weight cqm i :
  encode values weights max_weight = Some cqm →
  Z.abs (default 0 (values !! i)) < 2 ^ 53 →
  bias_of (objective cqm) i = - default 0 (values !! i).
Proof.
  intros (_ & _ & _ & _ & _ & _ & Hobj & _)%encode_Some_shape Hb.
  unfold bias_of. rewrite Hobj.
  destruct (values !! i) as [v|]; cbn [fmap option_fmap option_map default] in *; [|done].
  by apply stored_neg_value.
Qed.

Lemma capacity_bias values weights max_weight cqm i :
  encode values weights max_weight = Some cqm →
  (i < length values)%nat →
  Z.abs (default 0 (weights !! i)) < 2 ^ 53 →
  bias_of (capacity_lhs cqm) i = default 0 (weights !! i).
Proof.
  intros (_ & _ & _ & _ & _ & _ & _ & Hcon)%encode_Some_shape Hi Hb.
  unfold bias_of. rewrite Hcon, decide_True by done.
  destruct (weights !! i) as [w|]; cbn [fmap option_fmap option_map default] in *; [|done].
  by apply NumericFacts.f64_small.
Qed.

(** The objective at the indicator vector of a set of items whose values
    add up, in magnitude, to less than [2^53]. *)
Lemma objective_energy_indicator values weights max_weight cqm S :
  encode values weights max_weight = Some cqm →
  NoDup S → (∀ i, i ∈ S → (i < length values)%nat) →
  abs_total_at values S < 2 ^ 53 →
  bqm_energy (objective cqm) (indicator S)
  = - foldr (λ i s, default 0 (values !! i) + s) 0 S.
Proof.
  intros Henc HS Hin Hb.
  pose proof (encode_Some_shape _ _ _ _ Henc) as (_ & _ & Hv & Ho & _).
  assert (∀ i, i ∈ S → bias_of (objective cqm) i = - default 0 (values !! i)) as Hbias.
  { intros i Hi. eapply objective_bias; [done|].
    pose proof (abs_total_at_elem values S i Hi). lia. }
  rewrite bqm_energy_indicator.
  - rewrite Ho, (foldr_add_ext _ (λ i, - default 0 (values !! i))) by done.
    clear. induction S as [|i S IH]; [done|]. cbn [foldr] in *. lia.
  - done.
  - rewrite Hv. apply NoDup_seq.
  - intros i Hi. rewrite Hv, elem_of_seq. specialize (Hin i Hi). lia.
  - rewrite Ho.
    rewrite (foldr_add_ext _ (λ i, Z.abs (default 0 (values !! i)))).
    + fold (abs_total_at values S). lia.
    + intros i Hi. rewrite Hbias by done. lia.
Qed.

(** The constraint at the indicator vector of a set of items whose
    weights add up, in magnitude, to less than [2^53]. *)
Lemma capacity_energy_indicator values weights max_weight cqm S :
  encode values weights max_weight = Some cqm →
  NoDup S → (∀ i, i ∈ S → (i < length values)%nat) →
  abs_total_at weights S < 2 ^ 53 →
  bqm_energy (capacity_lhs cqm) (indicator S)
  = foldr (λ i s, default 0 (weights !! i) + s) 0 S.
Proof.
  intros Henc HS Hin Hb.
  pose proof (encode_Some_shape _ _ _ _ Henc) as (_ & _ & _ & _ & Hv & Ho & _).
  assert (∀ i, i ∈ S → bias_of (capacity_lhs cqm) i = default 0 (weights !! i)) as Hbias.
  { intros i Hi. eapply capacity_bias; [done|by apply Hin|].
    pose proof (abs_total_at_elem weights S i Hi). lia. }
  rewrite bqm_energy_indicator.
  - rewrite Ho, (foldr_add_ext _ (λ i, default 0 (weights !! i))) by done. lia.
  - done.
  - rewrite Hv. apply NoDup_seq.
  - intros i Hi. rewrite Hv, elem_of_seq. specialize (Hin i Hi). lia.
  - rewrite Ho.
    rewrite (foldr_add_ext _ (λ i, Z.abs (default 0 (weights !! i)))).
    + fold (abs_total_at weights S). lia.
    + intros i Hi. by rewrite Hbias.
Qed.

Lemma sum_loc_in_range (series : list Z) (items : list nat) :
  (∀ i, i ∈ items → (i < length series)%nat) →
  sum_loc series items = Some (foldr (λ i s, default 0 (series !! i) + s) 0 items).
Proof.
  unfold sum_loc. induction items as [|a items IH]; intros Hin; [done|].
  destruct (lookup_lt_is_Some_2 series a) as [v Hv]; [apply Hin; by left|].
  cbn [mapM]. rewrite Hv. cbn [mbind option_bind].
  specialize (IH (λ i Hi, Hin i (list_elem_of_further _ _ _ Hi))).
  destruct (mapM (λ i, series !! i) items) as [vs|]; simpl in IH; [|done].
  injection IH as IH. cbn [foldr]. rewrite Hv, <- IH. reflexivity.
Qed.

(** C7, as the code has it. The objective the knapsack encoder builds
    has the items [0..k-1] as its variables and keeps for item [i] the
    [float64] nearest to [-v_i]; for a set [S] of items whose values add
    up, in magnitude, to less than [2^53], every item of [S] carries
    exactly [-v_i] and the value of the objective at the indicator vector
    of [S] is minus the total value of [S]. *)
Theorem objective_at_indicator (values weights : list Z) (max_weight : Z) (S : list nat) :
  (length values ≤ length weights)%nat →
  NoDup S →
  (∀ i, i ∈ S → (i < length values)%nat) →
  abs_total_at values S < 2 ^ 53 →
  ∃ cqm total_value,
    encode values weights max_weight = Some cqm ∧
    variables (objective cqm) = seq 0 (length values) ∧
    (∀ i, linear (objective cqm) !! i = (λ v, f64 (int64 (- v))) <$> values !! i) ∧
    (∀ i, i ∈ S → linear (objective cqm) !! i = Z.opp <$> values !! i) ∧
    offset (objective cqm) = 0 ∧
    sum_loc values S = Some total_value ∧
    total_value = foldr (λ i s, default 0 (values !! i) + s) 0 S ∧
    bqm_energy (objective cqm) (indicator S) = - total_value.
Proof.
  intros Hlen HS Hin Hb.
  destruct (encode_is_Some values weights max_weight Hlen) as [cqm Henc].
  pose proof (encode_Some_shape _ _ _ _ Henc) as (_ & _ & Hv & Ho & _ & _ & Hobj & _).
  exists cqm, (foldr (λ i s, default 0 (values !! i) + s) 0 S).
  split; [done|]. split; [done|]. split; [done|]. split.
  { intros i Hi. rewrite Hobj.
    destruct (lookup_lt_is_Some_2 values i (Hin i Hi)) as [v Hvi]. rewrite Hvi.
    cbn [fmap option_fmap option_map]. f_equal. apply stored_neg_value.
    pose proof (abs_total_at_elem values S i Hi) as Hle. rewrite Hvi in Hle.
    change (default 0 (Some v)) with v in Hle. lia. }
  split; [done|]. split; [by apply sum_loc_in_range|]. split; [done|].
  by eapply objective_energy_indicator.
Qed.

Lemma objective_at_indicator_witness :
  let values := [60; 100; 120] in
  let weights := [10; 20; 30] in
  ∃ cqm,
    encode values weights 50 = Some cqm ∧
    sum_loc values [1; 2]%nat = Some 220 ∧
    bqm_energy (objective cqm) (indicator [1; 2]%nat) = -220.
Proof.
  intros values weights.
  assert (length values ≤ length weights)%nat as Hlen by (cbn; lia).
  assert (NoDup [1; 2]%nat) as Hnd by (apply (bool_decide_unpack _); vm_compute; exact I).
  assert (∀ i, i ∈ [1; 2]%nat → (i < length values)%nat) as Hin.
  { intros i. rewrite !elem_of_cons, elem_of_nil. cbn. lia. }
  assert (abs_total_at values [1; 2]%nat < 2 ^ 53) as Hb by reflexivity.
  destruct (objective_at_indicator values weights 50 [1; 2]%nat Hlen Hnd Hin Hb)
    as (cqm & tv & Henc & _ & _ & _ & _ & Hsum & Htv & Hen).
  exists cqm. split; [exact Henc|]. split; [reflexivity|].
  rewrite Hen, Htv. reflexivity.
Defined.

(** A single item of value [2^53 + 1]: the objective keeps the bias
    [-2^53], and its value at the indicator vector of the item is [-2^53],
    not minus the value of the item. *)
Lemma objective_rounds_large_value :
  let values := [2 ^ 53 + 1] in
  let S := [0%nat] in
  ∃ cqm,
    encode values [1] 1 = Some cqm ∧
    linear (objective cqm) !! 0%nat = Some (- 2 ^ 53) ∧
    sum_loc values S = Some (2 ^ 53 + 1) ∧
    bqm_energy (objective cqm) (indicator S) = - 2 ^ 53 ∧
    ¬ (bqm_energy (objective cqm) (indicator S) = - (2 ^ 53 + 1)).
Proof.
  intros values S. eexists. split; [by vm_compute|].
  split; [by vm_compute|]. split; [by vm_compute|]. split; [by vm_compute|].
  by vm_compute.
Qed.

(** *** The result-parsing half *)

Lemma elem_of_feasible r sampleset :
  r ∈ feasible sampleset ↔ r ∈ sampleset ∧ is_feasible r = true.
Proof. unfold feasible. rewrite list_elem_of_filter. tauto. Qed.

Lemma first_from b0 rows :
  ∃ b, foldl (λ best r,
                match best with
                | None => Some r
                | Some b => if energy r <? energy b then Some r else Some b
                end) (Some b0) rows = Some b ∧
       b ∈ b0 :: rows ∧ ∀ r, r ∈ b0 :: rows → energy b ≤ energy r.
Proof.
  revert b0. induction rows as [|r rows IH]; intros b0.
  - exists b0. split; [done|]. split; [by left|].
    intros r [->|[]%elem_of_nil]%elem_of_cons. lia.
  - cbn [foldl]. destruct (Z.ltb_spec (energy r) (energy b0)) as [Hlt|Hge].
    + destruct (IH r) as (b & Hb & Hin & Hmin). exists b.
      split; [done|]. split; [by right|].
      intros r' [->|Hr']%elem_of_cons; [|by apply Hmin].
      specialize (Hmin r (list_elem_of_here _ _)). lia.
    + destruct (IH b0) as (b & Hb & Hin & Hmin). exists b.
      split; [done|]. split.
      * apply elem_of_cons in Hin as [->|Hin]; [by left|by do 2 right].
      * intros r' [->|[->|Hr']%elem_of_cons]%elem_of_cons.
        -- apply Hmin. by left.
        -- specialize (Hmin b0 (list_elem_of_here _ _)). lia.
        -- apply Hmin. by right.
Qed.

(** [.first] of a non-empty set is one of its rows and has least energy. *)
Lemma first_spec rows :
  rows ≠ [] →
  ∃ b, first rows = Some b ∧ b ∈ rows ∧ ∀ r, r ∈ rows → energy b ≤ energy r.
Proof.
  destruct rows as [|r rows]; [done|]. intros _.
  unfold first. cbn [foldl]. apply first_from.
Qed.

Lemma selected_spec r i :
  i ∈ selected r ↔ (i, 1) ∈ sample r.
Proof.
  unfold selected. rewrite list_elem_of_fmap. split.
  - intros ([k v] & -> & [Hv Hin]%list_elem_of_filter). cbn [fst snd] in *. by subst v.
  - intros Hin. exists (i, 1). split; [done|]. by apply list_elem_of_filter.
Qed.

(** [sum(list(series.loc[items]))] adds the entries found at the items. *)
Lemma sum_loc_Some series items total :
  sum_loc series items = Some total
  ↔ ∃ vs, Forall2 (λ i v, series !! i = Some v) items vs ∧ total = foldr Z.add 0 vs.
Proof.
  unfold sum_loc. split.
  - destruct (mapM (λ i, series !! i) items) as [vs|] eqn:Hm; [|discriminate].
    intros [= <-]. exists vs. split; [by apply mapM_Some|done].
  - intros (vs & HF%mapM_Some & ->). by rewrite HF.
Qed.

Lemma feasible_nil sampleset :
  feasible sampleset = [] ↔ ∀ r, r ∈ sampleset → is_feasible r = false.
Proof.
  split.
  - intros Hnil r Hr. destruct (is_feasible r) eqn:Hf; [|done].
    assert (r ∈ feasible sampleset) as Hin by (by apply elem_of_feasible).
    rewrite Hnil in Hin. by apply elem_of_nil in Hin.
  - intros Hall. destruct (feasible sampleset) as [|r rows] eqn:Hf; [done|].
    assert (r ∈ feasible sampleset) as [Hr Ht]%elem_of_feasible by (rewrite Hf; by left).
    rewrite (Hall r Hr) in Ht. discriminate Ht.
Qed.

(** C6. The interpreter keeps the feasible samples only; it fails with
    "No feasible solution found" exactly when no sample of the set is
    feasible, and then produces nothing else; otherwise it picks a
    feasible sample of least energy and returns the items to which that
    sample gives the value 1, in the order of the sample, with the sum of
    their values and the sum of their weights. *)
Theorem parse_output_spec (values weights : list Z) (sampleset : list row) :
  (∀ r i, r ∈ sampleset → (i, 1) ∈ sample r →
          (i < length values)%nat ∧ (i < length weights)%nat) →
  (∀ r, r ∈ feasible sampleset ↔ r ∈ sampleset ∧ is_feasible r = true) ∧
  (parse_output values weights sampleset = ValueError "No feasible solution found"
   ↔ ∀ r, r ∈ sampleset → is_feasible r = false) ∧
  ((∃ r, r ∈ sampleset ∧ is_feasible r = true) →
   ∃ best items vs ws,
     best ∈ sampleset ∧ is_feasible best = true ∧
     (∀ r, r ∈ sampleset → is_feasible r = true → energy best ≤ energy r) ∧
     items = (filter (λ kv, kv.2 = 1) (sample best)).*1 ∧
     Forall2 (λ i v, values !! i = Some v) items vs ∧
     Forall2 (λ i w, weights !! i = Some w) items ws ∧
     parse_output values weights sampleset
     = Returned (foldr Z.add 0 vs) (foldr Z.add 0 ws) items (energy best)).
Proof.
  intros Hkeys. split; [intros r; apply elem_of_feasible|].
  assert (feasible sampleset ≠ [] →
          ∃ best items vs ws,
            best ∈ sampleset ∧ is_feasible best = true ∧
            (∀ r, r ∈ sampleset → is_feasible r = true → energy best ≤ energy r) ∧
            items = (filter (λ kv, kv.2 = 1) (sample best)).*1 ∧
            Forall2 (λ i v, values !! i = Some v) items vs ∧
            Forall2 (λ i w, weights !! i = Some w) items ws ∧
            parse_output values weights sampleset
            = Returned (foldr Z.add 0 vs) (foldr Z.add 0 ws) items (energy best)) as Hok.
  { intros Hne. destruct (first_spec _ Hne) as (best & Hfirst & Hin & Hmin).
    apply elem_of_feasible in Hin as [Hin Hfeas].
    pose proof (sum_loc_in_range values (selected best)
                  (λ i Hi, proj1 (Hkeys best i Hin (proj1 (selected_spec best i) Hi))))
      as Hv.
    pose proof (sum_loc_in_range weights (selected best)
                  (λ i Hi, proj2 (Hkeys best i Hin (proj1 (selected_spec best i) Hi))))
      as Hw.
    pose proof Hv as (vs & HFv & Hvs)%sum_loc_Some.
    pose proof Hw as (ws & HFw & Hws)%sum_loc_Some.
    exists best, (selected best), vs, ws. split; [done|]. split; [done|].
    split; [intros r Hr Hf; apply Hmin; by apply elem_of_feasible|].
    split; [done|]. split; [done|]. split; [done|].
    unfold parse_output. rewrite decide_False by (by destruct (feasible sampleset)).
    by rewrite Hfirst, Hw, Hv, Hvs, Hws. }
  split.
  - rewrite <- feasible_nil. split.
    + intros Hout. destruct (feasible sampleset) as [|r rows] eqn:Hf; [done|].
      destruct Hok as (best & items & vs & ws & _ & _ & _ & _ & _ & _ & Hret); [done|].
      rewrite Hret in Hout. discriminate Hout.
    + intros Hempty. unfold parse_output. rewrite Hempty. reflexivity.
  - intros (r & Hr & Hf). apply Hok. intros Hnil.
    rewrite feasible_nil in Hnil. rewrite (Hnil r Hr) in Hf. discriminate Hf.
Qed.

(** The small sample set, evaluated: the infeasible row of lowest energy
    is skipped; with only that row the failure is reported. *)
Example small_sampleset_parsed :
  parse_output [60; 100; 120] [10; 20; 30] small_sampleset
  = Returned 220 50 [1; 2]%nat (-220) ∧
  parse_output [60; 100; 120] [10; 20; 30] (take 1 small_sampleset)
  = ValueError "No feasible solution found".
Proof. split; reflexivity. Qed.

Lemma parse_output_spec_witness :
  let values := [60; 100; 120] in
  let weights := [10; 20; 30] in
  (∀ r i, r ∈ small_sampleset → (i, 1) ∈ sample r →
          (i < length values)%nat ∧ (i < length weights)%nat) ∧
  (∃ r, r ∈ small_sampleset ∧ is_feasible r = true) ∧
  ∃ best items vs ws,
    best ∈ small_sampleset ∧ is_feasible best = true ∧
    (∀ r, r ∈ small_sampleset → is_feasible r = true → energy best ≤ energy r) ∧
    items = (filter (λ kv, kv.2 = 1) (sample best)).*1 ∧
    Forall2 (λ i v, values !! i = Some v) items vs ∧
    Forall2 (λ i w, weights !! i = Some w) items ws ∧
    parse_output values weights small_sampleset
    = Returned (foldr Z.add 0 vs) (foldr Z.add 0 ws) items (energy best).
Proof.
  intros values weights.
  assert (∀ r i, r ∈ small_sampleset → (i, 1) ∈ sample r →
                 (i < length values)%nat ∧ (i < length weights)%nat) as Hkeys.
  { assert (Forall (λ r, Forall (λ i, (i < 3)%nat) (selected r)) small_sampleset) as HF
      by (apply (bool_decide_unpack _); vm_compute; exact I).
    intros r i Hr Hi%selected_spec. rewrite Forall_forall in HF. specialize (HF r Hr).
    rewrite Forall_forall in HF. specialize (HF i Hi). cbn. lia. }
  assert (∃ r, r ∈ small_sampleset ∧ is_feasible r = true) as Hex.
  { eexists. split; [apply list_elem_of_further, list_elem_of_here|reflexivity]. }
  split; [exact Hkeys|]. split; [exact Hex|].
  destruct (parse_output_spec values weights small_sampleset Hkeys) as (_ & _ & Hok).
  exact (Hok Hex).
Defined.

End KnapsackFacts.

(** ** The toy problem *)

Module ToyFacts.
Import Qubo QuboFacts Toy.

(** The energy of the toy map as a polynomial in v, w, t. *)
Lemma toy_energy x :
  energy toy_Q x
  = -3 * x 1%nat * x 1%nat - 3 * x 2%nat * x 2%nat + x 3%nat * x 3%nat
    + 8 * x 1%nat * x 2%nat.
Proof.
  assert (toy_Q = add_terms [(at_ 1 1, 1 - A); (at_ 2 2, 1 - A); (at_ 3 3, 1);
                             (at_ 1 2, 2 * A)] ∅) as -> by (by vm_compute).
  rewrite energy_add_terms, energy_empty.
  unfold terms_energy, term_energy, A, at_. cbn [foldr fst snd]. lia.
Qed.

Lemma toy_binary x :
  binary_on toy_vars x →
  (x 1%nat = 0 ∨ x 1%nat = 1) ∧ (x 2%nat = 0 ∨ x 2%nat = 1) ∧
  (x 3%nat = 0 ∨ x 3%nat = 1).
Proof.
  intros Hb. repeat split; apply Hb; unfold toy_vars; rewrite !elem_of_cons; auto.
Qed.

(** C9. With [A = 4] the toy map is [{(1,1): -3, (2,2): -3, (3,3): 1,
    (1,2): 8}]; over the 8 binary assignments of v, w, t its energy is at
    least -3, it is -3 exactly at (1,0,0) and (0,1,0), and an assignment
    minimises the energy exactly when [v + w = 1] and [t = 0]. *)
Theorem toy_minimum (x : nat → Z) :
  binary_on toy_vars x →
  toy_Q = printed_Q ∧
  -3 ≤ energy toy_Q x ∧
  (energy toy_Q x = -3
   ↔ (x 1%nat = 1 ∧ x 2%nat = 0 ∧ x 3%nat = 0)
     ∨ (x 1%nat = 0 ∧ x 2%nat = 1 ∧ x 3%nat = 0)) ∧
  ((∀ y, binary_on toy_vars y → energy toy_Q x ≤ energy toy_Q y)
   ↔ x 1%nat + x 2%nat = 1 ∧ x 3%nat = 0).
Proof.
  intros Hx. split; [by vm_compute|].
  assert (∀ y, binary_on toy_vars y → -3 ≤ energy toy_Q y) as Hlow.
  { intros y (H1 & H2 & H3)%toy_binary. rewrite toy_energy.
    destruct H1 as [-> | ->], H2 as [-> | ->], H3 as [-> | ->]; lia. }
  split; [by apply Hlow|].
  pose proof (toy_binary x Hx) as (H1 & H2 & H3).
  split.
  - rewrite toy_energy.
    destruct H1 as [-> | ->], H2 as [-> | ->], H3 as [-> | ->]; split; lia.
  - split.
    + intros Hmin.
      specialize (Hmin printed_sample (indicator_binary _ _)).
      assert (energy toy_Q printed_sample = -3) as He by (by vm_compute).
      rewrite He, toy_energy in Hmin.
      destruct H1 as [E1|E1], H2 as [E2|E2], H3 as [E3|E3];
        rewrite E1, E2, E3 in Hmin |- *; lia.
    + intros [Hsum Ht] y Hy. specialize (Hlow y Hy).
      assert (energy toy_Q x = -3) as ->; [|done].
      rewrite toy_energy, Ht.
      destruct H1 as [E1|E1], H2 as [E2|E2]; rewrite E1, E2 in Hsum |- *; lia.
Qed.

Lemma toy_minimum_witness :
  binary_on toy_vars printed_sample ∧
  (∀ y, binary_on toy_vars y → energy toy_Q printed_sample ≤ energy toy_Q y).
Proof.
  assert (binary_on toy_vars printed_sample) as Hb by apply indicator_binary.
  split; [exact Hb|].
  destruct (toy_minimum printed_sample Hb) as (_ & _ & _ & Hiff).
  apply Hiff. split; reflexivity.
Defined.

End ToyFacts.

(** ** The max-cut interpreter and the shape of its map *)

Module MaxCutInterpreter.
Import Qubo QuboFacts MaxCut.

Lemma endpoints_in_nodes G x :
  (∀ u v, (u, v) ∈ edges G → u ∈ nodes G ∧ v ∈ nodes G) →
  binary_on (nodes G) x → binary_on (endpoints G) x.
Proof.
  intros Hin Hb i Hi. apply Hb. unfold endpoints in Hi.
  apply list_elem_of_bind in Hi as ([u v] & Hi & Huv).
  destruct (Hin u v Huv) as [Hu Hv]. cbn [fst snd] in Hi.
  rewrite !elem_of_cons, elem_of_nil in Hi. destruct Hi as [->|[->|[]]]; done.
Qed.

(** X1. The two node lists split the nodes, the two edge lists split the
    edges, and for a binary look-up table an edge is listed as cut exactly
    when its endpoints lie in different node lists. *)
Theorem maxcut_sets_partition (G : Graph) (lut : nat → Z) :
  binary_on (nodes G) lut →
  (∀ u v, (u, v) ∈ edges G → u ∈ nodes G ∧ v ∈ nodes G) →
  S0 G lut ++ S1 G lut ≡ₚ nodes G ∧
  (∀ i, i ∈ S0 G lut → i ∉ S1 G lut) ∧
  cut_edges G lut ++ uncut_edges G lut ≡ₚ edges G ∧
  (length (cut_edges G lut) + length (uncut_edges G lut) = length (edges G))%nat ∧
  (∀ u v, (u, v) ∈ cut_edges G lut
          ↔ (u, v) ∈ edges G ∧
            ((u ∈ S0 G lut ∧ v ∈ S1 G lut) ∨ (u ∈ S1 G lut ∧ v ∈ S0 G lut))).
Proof.
  intros Hb Hin.
  assert (cut_edges G lut ++ uncut_edges G lut ≡ₚ edges G) as Hperm.
  { unfold cut_edges, uncut_edges. rewrite (comm (++)).
    rewrite <- (filter_app_complement (λ e, lut e.1 = lut e.2) (edges G)) at 3.
    done. }
  split; [apply (filter_app_complement (λ node, lut node = 0))|].
  split; [unfold S0, S1; intros i [H0 _]%list_elem_of_filter [H1 _]%list_elem_of_filter; done|].
  split; [done|].
  split; [by rewrite <- length_app, Hperm|].
  intros u v. unfold cut_edges, S0, S1. rewrite !list_elem_of_filter. cbn [fst snd].
  split.
  - intros [Hne Huv]. split; [done|]. destruct (Hin u v Huv) as [Hu Hv].
    destruct (Hb u Hu) as [H0|H1], (Hb v Hv) as [H0'|H1']; try congruence.
    + left. split; (split; [lia|done]).
    + right. split; (split; [lia|done]).
  - intros [Huv [[[Hu0 _] [Hv1 _]]|[[Hu1 _] [Hv0 _]]]]; (split; [congruence|done]).
Qed.

Lemma maxcut_sets_partition_witness :
  binary_on (nodes five_node_graph) best_sample ∧
  S0 five_node_graph best_sample ++ S1 five_node_graph best_sample
    ≡ₚ nodes five_node_graph.
Proof.
  assert (binary_on (nodes five_node_graph) best_sample) as Hb by apply indicator_binary.
  assert (∀ u v, (u, v) ∈ edges five_node_graph →
                 u ∈ nodes five_node_graph ∧ v ∈ nodes five_node_graph) as Hin.
  { assert (Forall (λ e, e.1 ∈ nodes five_node_graph ∧ e.2 ∈ nodes five_node_graph)
              (edges five_node_graph)) as HF
      by (apply (bool_decide_unpack _); vm_compute; exact I).
    intros u v Huv. rewrite Forall_forall in HF. exact (HF (u, v) Huv). }
  split; [exact Hb|].
  exact (proj1 (maxcut_sets_partition five_node_graph best_sample Hb Hin)).
Defined.

(** *** The max-cut map against the partition objective *)

Lemma coeff_fmap_opp (Q : gmap (nat * nat) Z) (k : nat * nat) : coeff (Z.opp <$> Q) k = - coeff Q k.
Proof. unfold coeff. rewrite lookup_fmap. by destruct (Q !! k). Qed.

Lemma fmap_opp_acc (k : nat * nat) (c : Z) (Q : gmap (nat * nat) Z) :
  Z.opp <$> acc k c Q = acc k (- c) (Z.opp <$> Q).
Proof.
  unfold acc. rewrite fmap_insert, coeff_fmap_opp. f_equal. lia.
Qed.

Lemma maxcut_fold_opp (es : list (nat * nat)) (Q : gmap (nat * nat) Z) :
  foldl maxcut_step (Z.opp <$> Q) es = Z.opp <$> foldl Partition.objective_step Q es.
Proof.
  revert Q. induction es as [|[u v] es IH]; intros Q; [done|].
  cbn [foldl]. rewrite <- IH. f_equal.
  unfold maxcut_step, Partition.objective_step. by rewrite !fmap_opp_acc.
Qed.

Lemma simple_graph_five_node : simple_graph five_node_graph.
Proof.
  split; [apply (bool_decide_unpack _); vm_compute; exact I|].
  split; [apply (bool_decide_unpack _); vm_compute; exact I|].
  assert (Forall (λ e, e ∈ combinations (nodes five_node_graph)) (edges five_node_graph))
    as HF by (apply (bool_decide_unpack _); vm_compute; exact I).
  intros u v Huv. apply PartitionFacts.elem_of_combinations_before.
  rewrite Forall_forall in HF. exact (HF (u, v) Huv).
Qed.

(** X2. The max-cut encoder's map is the objective portion of the partition
    encoder's map with every coefficient negated. Its keys are the edges
    and the diagonal pairs of their endpoints; on a simple graph the
    diagonal coefficient of a node is minus its degree and the coefficient
    of an edge is 2. *)
Theorem maxcut_map_shape (G : Graph) :
  simple_graph G →
  build_Q G = Z.opp <$> Partition.objective_Q G ∧
  (∀ k, k ∈ dom (build_Q G)
        ↔ ∃ u v, (u, v) ∈ edges G ∧ (k = (u, u) ∨ k = (v, v) ∨ k = (u, v))) ∧
  (∀ i, coeff (build_Q G) (i, i) = - degree G i) ∧
  (∀ u v, (u, v) ∈ edges G → coeff (build_Q G) (u, v) = 2).
Proof.
  intros (Hnd & Hes & Hbef).
  assert (build_Q G = Z.opp <$> Partition.objective_Q G) as Heq.
  { unfold build_Q, Partition.objective_Q, Partition.add_objective.
    by rewrite <- maxcut_fold_opp, fmap_empty. }
  split; [done|]. rewrite Heq. split; [|split].
  - intros k. rewrite dom_fmap_L. unfold Partition.objective_Q.
    rewrite PartitionFacts.add_objective_terms, dom_add_terms, dom_empty_L.
    rewrite (right_id_L ∅ (∪)), elem_of_list_to_set.
    apply PartitionFacts.objective_terms_keys.
  - intros i. rewrite coeff_fmap_opp, PartitionFacts.coeff_objective_Q.
    rewrite PartitionFacts.contrib_objective_diag; [done|].
    intros u v Huv. by eapply PartitionFacts.before_ne, Hbef.
  - intros u v Huv. rewrite coeff_fmap_opp, PartitionFacts.coeff_objective_Q.
    rewrite PartitionFacts.contrib_objective_offdiag
      by (by eapply PartitionFacts.before_ne, Hbef).
    rewrite PartitionFacts.length_filter_eq_NoDup by done. lia.
Qed.

Lemma maxcut_map_shape_witness :
  simple_graph five_node_graph ∧
  coeff (build_Q five_node_graph) (3, 3)%nat = - degree five_node_graph 3 ∧
  coeff (build_Q five_node_graph) (3, 5)%nat = 2.
Proof.
  split; [apply simple_graph_five_node|].
  destruct (maxcut_map_shape five_node_graph simple_graph_five_node)
    as (_ & _ & Hdiag & Hedge).
  split; [apply Hdiag|]. apply Hedge.
  unfold five_node_graph; cbn [edges]. rewrite !elem_of_cons. auto 10.
Defined.

(** *** Swapping the two subsets *)

Lemma filter_ext_in {A} (P Q : A → Prop) `{!∀ a, Decision (P a), !∀ a, Decision (Q a)}
    (l : list A) :
  (∀ a, a ∈ l → (P a ↔ Q a)) → filter P l = filter Q l.
Proof.
  induction l as [|a l IH]; intros Hext; [done|].
  rewrite !filter_cons, IH by (intros; apply Hext; by right).
  pose proof (Hext a (list_elem_of_here _ _)) as Ha.
  destruct (decide (P a)) as [HP|HP], (decide (Q a)) as [HQ|HQ]; tauto.
Qed.

Lemma edge_score_complement x e : edge_score (complement x) e = edge_score x e.
Proof. unfold edge_score, complement. lia. Qed.

Lemma cut_size_complement x es : cut_size (complement x) es = cut_size x es.
Proof.
  induction es as [|e es IH]; [done|].
  by rewrite !cut_size_cons, IH, edge_score_complement.
Qed.

Lemma complement_binary l x : binary_on l x → binary_on l (complement x).
Proof. intros Hb i Hi. unfold complement. destruct (Hb i Hi) as [-> | ->]; auto. Qed.

Lemma xsum_complement x l :
  xsum (complement x) l = Z.of_nat (length l) - xsum x l.
Proof.
  induction l as [|a l IH]; [done|].
  rewrite !xsum_cons, IH. unfold complement. cbn [length]. lia.
Qed.

Lemma binary_on_app l1 l2 x :
  binary_on (l1 ++ l2) x ↔ binary_on l1 x ∧ binary_on l2 x.
Proof.
  unfold binary_on. split.
  - intros H. split; intros i Hi; apply H, elem_of_app; auto.
  - intros [H1 H2] i [Hi|Hi]%elem_of_app; auto.
Qed.

(** X3. Swapping the two subsets of a binary assignment changes neither the
    energy of the max-cut map nor the energy of the graph-partition map,
    and exchanges the two node lists of the max-cut interpreter. *)
Theorem energy_complement (gamma : Z) (G : Graph) (x : nat → Z) :
  binary_on (nodes G ++ endpoints G) x →
  energy (build_Q G) (complement x) = energy (build_Q G) x ∧
  energy (Partition.build_Q gamma G) (complement x)
  = energy (Partition.build_Q gamma G) x ∧
  S0 G (complement x) = S1 G x ∧
  S1 G (complement x) = S0 G x.
Proof.
  intros [Hn He]%binary_on_app.
  pose proof (complement_binary _ _ Hn) as Hn'.
  pose proof (complement_binary _ _ He) as He'.
  split; [|split; [|split]].
  - by rewrite !MaxCutFacts.maxcut_energy, cut_size_complement by done.
  - rewrite !PartitionFacts.energy_build_Q.
    rewrite !PartitionFacts.energy_objective_Q, !PartitionFacts.energy_penalty_Q by done.
    rewrite cut_size_complement, xsum_complement. lia.
  - unfold S0, S1. apply filter_ext_in. intros i Hi. unfold complement.
    destruct (Hn i Hi) as [-> | ->]; lia.
  - unfold S0, S1. apply filter_ext_in. intros i Hi. unfold complement.
    destruct (Hn i Hi) as [-> | ->]; lia.
Qed.

Lemma energy_complement_witness :
  binary_on (nodes five_node_graph ++ endpoints five_node_graph) best_sample ∧
  energy (build_Q five_node_graph) (complement best_sample)
  = energy (build_Q five_node_graph) best_sample.
Proof.
  assert (binary_on (nodes five_node_graph ++ endpoints five_node_graph) best_sample)
    as Hb by apply indicator_binary.
  split; [exact Hb|].
  exact (proj1 (energy_complement 0 five_node_graph best_sample Hb)).
Defined.

(** *** The printed rows *)

Lemma printed_S0_spec items i :
  NoDup items.*1 →
  i ∈ printed_S0 items ↔ (list_to_map items : gmap nat Z) !! i = Some 0.
Proof.
  intros Hnd. rewrite <- elem_of_list_to_map by done.
  unfold printed_S0. rewrite list_elem_of_fmap. split.
  - intros ([k v] & -> & [Hv Hin]%list_elem_of_filter). cbn [fst snd] in *. by subst v.
  - intros Hin. exists (i, 0). split; [done|]. by apply list_elem_of_filter.
Qed.

Lemma printed_S1_spec items i :
  NoDup items.*1 →
  i ∈ printed_S1 items ↔ (list_to_map items : gmap nat Z) !! i = Some 1.
Proof.
  intros Hnd. rewrite <- elem_of_list_to_map by done.
  unfold printed_S1. rewrite list_elem_of_fmap. split.
  - intros ([k v] & -> & [Hv Hin]%list_elem_of_filter). cbn [fst snd] in *. by subst v.
  - intros Hin. exists (i, 1). split; [done|]. by apply list_elem_of_filter.
Qed.

Lemma sample_lut_key items i :
  NoDup items.*1 → Forall (λ kv, kv.2 = 0 ∨ kv.2 = 1) items → i ∈ items.*1 →
  (sample_lut items i = 0 ∧ i ∈ printed_S0 items ∧ i ∉ printed_S1 items)
  ∨ (sample_lut items i = 1 ∧ i ∈ printed_S1 items ∧ i ∉ printed_S0 items).
Proof.
  intros Hnd HF Hi. rewrite printed_S0_spec, printed_S1_spec by done.
  unfold sample_lut.
  destruct (list_to_map items !! i) as [v|] eqn:Hv.
  - pose proof Hv as Hin. apply elem_of_list_to_map in Hin; [|done].
    rewrite Forall_forall in HF. specialize (HF _ Hin). cbn [snd] in HF.
    destruct HF as [-> | ->]; [left|right]; done.
  - by apply not_elem_of_list_to_map in Hv.
Qed.

Lemma sample_lut_binary items l :
  Forall (λ kv, kv.2 = 0 ∨ kv.2 = 1) items → binary_on l (sample_lut items).
Proof.
  intros HF i _. unfold sample_lut.
  destruct (list_to_map items !! i) as [v|] eqn:Hv; cbn [default]; [|by left].
  apply elem_of_list_to_map_2 in Hv. rewrite Forall_forall in HF.
  exact (HF _ Hv).
Qed.

(** X4. For a row whose sample gives every variable once a binary value and
    whose energy is the energy of the map at that sample, the two printed
    sets split the variables and the printed cut size is the number of
    edges with one endpoint in each printed set. *)
Theorem printed_cut_size_counts (G : Graph) (items : list (nat * Z)) (E : Z) :
  NoDup items.*1 →
  Forall (λ kv, kv.2 = 0 ∨ kv.2 = 1) items →
  (∀ u v, (u, v) ∈ edges G → u ∈ items.*1 ∧ v ∈ items.*1) →
  E = energy (build_Q G) (sample_lut items) →
  printed_S0 items ++ printed_S1 items ≡ₚ items.*1 ∧
  printed_cut_size E
  = Z.of_nat (length (filter (λ e, (e.1 ∈ printed_S0 items ∧ e.2 ∈ printed_S1 items)
                                   ∨ (e.1 ∈ printed_S1 items ∧ e.2 ∈ printed_S0 items))
                             (edges G))).
Proof.
  intros Hnd HF Hin ->. split.
  - unfold printed_S0, printed_S1. rewrite <- fmap_app.
    rewrite (filter_ext_in (λ kv, kv.2 = 1) (λ kv, ¬ kv.2 = 0)).
    + by rewrite filter_app_complement.
    + intros kv Hkv. rewrite Forall_forall in HF. destruct (HF kv Hkv); lia.
  - assert (length (cut_edges G (sample_lut items))
            = length (filter (λ e, (e.1 ∈ printed_S0 items ∧ e.2 ∈ printed_S1 items)
                                   ∨ (e.1 ∈ printed_S1 items ∧ e.2 ∈ printed_S0 items))
                             (edges G))) as <-.
    { unfold cut_edges. f_equal. apply filter_ext_in. intros [u v] Huv. cbn [fst snd].
      destruct (Hin u v Huv) as [Hu Hv].
      destruct (sample_lut_key items u Hnd HF Hu) as [(-> & ? & ?)|(-> & ? & ?)],
               (sample_lut_key items v Hnd HF Hv) as [(-> & ? & ?)|(-> & ? & ?)];
        split; intros; try done; try tauto. }
    unfold printed_cut_size.
    rewrite MaxCutFacts.maxcut_energy by apply sample_lut_binary, HF.
    rewrite <- MaxCutFacts.length_cut_edges by apply sample_lut_binary, HF.
    lia.
Qed.

Lemma printed_cut_size_counts_witness :
  let items := [(1%nat, 1); (2%nat, 0); (3%nat, 0); (4%nat, 1); (5%nat, 1)] in
  printed_S0 items ++ printed_S1 items ≡ₚ items.*1 ∧
  printed_cut_size (-5)
  = Z.of_nat (length (filter (λ e, (e.1 ∈ printed_S0 items ∧ e.2 ∈ printed_S1 items)
                                   ∨ (e.1 ∈ printed_S1 items ∧ e.2 ∈ printed_S0 items))
                             (edges five_node_graph))).
Proof.
  intros items.
  assert (NoDup items.*1) as Hnd by (apply (bool_decide_unpack _); vm_compute; exact I).
  assert (Forall (λ kv, kv.2 = 0 ∨ kv.2 = 1) items) as HF
    by (apply (bool_decide_unpack _); vm_compute; exact I).
  assert (∀ u v, (u, v) ∈ edges five_node_graph → u ∈ items.*1 ∧ v ∈ items.*1) as Hin.
  { assert (Forall (λ e, e.1 ∈ items.*1 ∧ e.2 ∈ items.*1) (edges five_node_graph)) as HE
      by (apply (bool_decide_unpack _); vm_compute; exact I).
    intros u v Huv. rewrite Forall_forall in HE. exact (HE (u, v) Huv). }
  assert (-5 = energy (build_Q five_node_graph) (sample_lut items)) as HE
    by (vm_compute; reflexivity).
  exact (printed_cut_size_counts five_node_graph items (-5) Hnd HF Hin HE).
Defined.

End MaxCutInterpreter.

(** ** The penalty weight, the size of the map and the partition check *)

Module PenaltyWeight.
Import Qubo QuboFacts Numeric Partition PartitionFacts.

Lemma cut_size_bounds x es :
  (∀ u v, (u, v) ∈ es → (x u = 0 ∨ x u = 1) ∧ (x v = 0 ∨ x v = 1)) →
  0 ≤ cut_size x es ≤ Z.of_nat (length es).
Proof.
  induction es as [|[u v] es IH]; intros Hb; [done|].
  rewrite cut_size_cons. specialize (IH (λ a b H, Hb a b (list_elem_of_further _ _ _ H))).
  destruct (Hb u v (list_elem_of_here _ _)) as [Hu Hv].
  unfold edge_score. cbn [fst snd length].
  destruct Hu as [-> | ->], Hv as [-> | ->]; lia.
Qed.

(** X5. For a binary assignment the cut count lies between 0 and the number
    of edges; so does the energy of the partition objective, and the
    max-cut energy lies between minus the number of edges and 0. The count
    the partition interpreter recomputes from a sample is the cut count
    reduced to [int8]: it lies between -128 and 127, and below 128 cut
    edges it is the cut count and obeys the same bounds. *)
Theorem cut_count_bounds (G : Graph) (x : nat → Z) :
  binary_on (endpoints G) x →
  0 ≤ cut_size x (edges G) ≤ Z.of_nat (length (edges G)) ∧
  0 ≤ energy (objective_Q G) x ≤ Z.of_nat (length (edges G)) ∧
  - Z.of_nat (length (edges G)) ≤ energy (MaxCut.build_Q G) x ≤ 0 ∧
  0 ≤ MaxCut.printed_cut_size (energy (MaxCut.build_Q G) x)
    ≤ Z.of_nat (length (edges G)) ∧
  (∀ sample, sample_of G sample → x = assignment sample →
     ∃ c, num_cut_edges G sample = Some c ∧
          c = int8 (cut_size x (edges G)) ∧ -128 ≤ c ≤ 127 ∧
          (cut_size x (edges G) < 128 →
           c = cut_size x (edges G) ∧ 0 ≤ c ≤ Z.of_nat (length (edges G)))).
Proof.
  intros Hb.
  assert (0 ≤ cut_size x (edges G) ≤ Z.of_nat (length (edges G))) as Hcut
    by (apply cut_size_bounds; intros u v; by apply binary_on_endpoints).
  split; [done|].
  split; [by rewrite energy_objective_Q|].
  split; [rewrite MaxCutFacts.maxcut_energy by done; lia|].
  split; [unfold MaxCut.printed_cut_size; rewrite MaxCutFacts.maxcut_energy by done; lia|].
  intros sample Hs ->. eexists. split; [by apply num_cut_edges_int8|].
  split; [done|]. split; [apply NumericFacts.int8_range|].
  intros Hlt. rewrite NumericFacts.int8_small by lia. done.
Qed.

Lemma cut_count_bounds_witness :
  let G := Examples.square_graph in
  let x := assignment [1; 1; 0; 0] in
  binary_on (endpoints G) x ∧
  0 ≤ cut_size x (edges G) ≤ Z.of_nat (length (edges G)).
Proof.
  intros G x.
  assert (binary_on (endpoints G) x) as Hx
    by (apply assignment_binary; repeat constructor; auto).
  split; [exact Hx|]. exact (proj1 (cut_count_bounds G x Hx)).
Defined.

(** *** A penalty weight above the number of edges *)

(** The energy of the whole map at a binary assignment. *)
Lemma energy_build_Q_binary gamma G x :
  binary_on (nodes G ++ endpoints G) x →
  energy (build_Q gamma G) x
  = cut_size x (edges G)
    + gamma * xsum x (nodes G) * (xsum x (nodes G) - Z.of_nat (length (nodes G))).
Proof.
  intros [Hn He]%MaxCutInterpreter.binary_on_app.
  by rewrite energy_build_Q, energy_objective_Q, energy_penalty_Q.
Qed.

(** X6. With an even number of nodes and [gamma] above the number of edges,
    every binary assignment of least energy for the whole map has exactly
    [n/2] ones, and no assignment with [n/2] ones cuts fewer edges. *)
Theorem large_gamma_forces_balance (gamma : Z) (G : Graph) (x : nat → Z) :
  Z.of_nat (length (edges G)) < gamma →
  NoDup (nodes G) →
  Nat.Even (length (nodes G)) →
  binary_on (nodes G ++ endpoints G) x →
  (∀ y, binary_on (nodes G ++ endpoints G) y →
        energy (build_Q gamma G) x ≤ energy (build_Q gamma G) y) →
  xsum x (nodes G) = floor_half (length (nodes G)) ∧
  (∀ y, binary_on (nodes G ++ endpoints G) y →
        xsum y (nodes G) = floor_half (length (nodes G)) →
        cut_size x (edges G) ≤ cut_size y (edges G)).
Proof.
  intros Hg Hnd Hev Hx Hmin. apply even_half in Hev.
  set (h := floor_half (length (nodes G))) in *. set (s := xsum x (nodes G)).
  assert (∀ z, binary_on (nodes G ++ endpoints G) z →
               0 ≤ cut_size z (edges G) ≤ Z.of_nat (length (edges G))) as Hcut.
  { intros z [_ Hz]%MaxCutInterpreter.binary_on_app.
    apply cut_size_bounds. intros u v. by apply binary_on_endpoints. }
  assert (s = h) as Hs.
  { destruct (balanced_exists G Hnd) as [_ Hsum].
    set (y0 := indicator (take (length (nodes G) / 2) (nodes G))) in *.
    assert (binary_on (nodes G ++ endpoints G) y0) as Hy0 by apply indicator_binary.
    specialize (Hmin y0 Hy0).
    rewrite !energy_build_Q_binary, Hsum, Hev in Hmin by done.
    fold h s in Hmin.
    pose proof (Hcut x Hx). pose proof (Hcut y0 Hy0).
    assert (gamma * ((s - h) * (s - h)) < gamma * 1) as Hlt by lia.
    assert (0 ≤ (s - h) * (s - h)) by apply Z.square_nonneg.
    assert ((s - h) * (s - h) < 1) by (apply (Z.mul_lt_mono_pos_l gamma); lia).
    assert ((s - h) * (s - h) = 0) as Hz by lia.
    apply Z.mul_eq_0 in Hz. lia. }
  split; [done|]. intros y Hy Hbal. specialize (Hmin y Hy).
  rewrite !energy_build_Q_binary in Hmin by done.
  fold s in Hmin. rewrite Hbal, Hs in Hmin. lia.
Qed.

Lemma large_gamma_forces_balance_witness :
  let G := Examples.square_graph in
  let x := indicator [0; 1]%nat in
  Z.of_nat (length (edges G)) < 80 ∧ NoDup (nodes G) ∧ Nat.Even (length (nodes G)) ∧
  binary_on (nodes G ++ endpoints G) x ∧
  xsum x (nodes G) = floor_half (length (nodes G)).
Proof.
  intros G x.
  assert (Z.of_nat (length (edges G)) < 80) as Hg by (cbn; lia).
  assert (NoDup (nodes G)) as Hnd by (apply (bool_decide_unpack _); vm_compute; exact I).
  assert (Nat.Even (length (nodes G))) as Hev by (exists 2%nat; reflexivity).
  assert (binary_on (nodes G ++ endpoints G) x) as Hx by apply indicator_binary.
  assert (∀ y, binary_on (nodes G ++ endpoints G) y →
               energy (build_Q 80 G) x ≤ energy (build_Q 80 G) y) as Hmin.
  { intros y Hy. rewrite !energy_build_Q_binary by done.
    assert (xsum x (nodes G) = 2) as -> by reflexivity.
    assert (cut_size x (edges G) = 2) as -> by reflexivity.
    change (Z.of_nat (length (nodes G))) with 4.
    assert (binary_on (nodes G) y ∧ binary_on (endpoints G) y) as [Hn He]
      by by apply MaxCutInterpreter.binary_on_app.
    assert ((y 0%nat = 0 ∨ y 0%nat = 1) ∧ (y 1%nat = 0 ∨ y 1%nat = 1) ∧
            (y 2%nat = 0 ∨ y 2%nat = 1) ∧ (y 3%nat = 0 ∨ y 3%nat = 1))
      as (H0 & H1 & H2 & H3)
      by (repeat split; apply Hn; unfold G, Examples.square_graph; cbn;
          rewrite !elem_of_cons; auto 10).
    unfold cut_size, edge_score, xsum, G, Examples.square_graph; cbn.
    destruct H0 as [-> | ->], H1 as [-> | ->], H2 as [-> | ->], H3 as [-> | ->]; lia. }
  repeat (split; [assumption|]).
  exact (proj1 (large_gamma_forces_balance 80 G x Hg Hnd Hev Hx Hmin)).
Defined.

(** *** The penalty portion for any number of nodes *)

Lemma half_split n :
  floor_half n + ceil_half n = Z.of_nat n ∧ 0 ≤ ceil_half n - floor_half n ≤ 1.
Proof.
  unfold floor_half, ceil_half.
  pose proof (Z.div_mod (Z.of_nat n) 2 ltac:(lia)).
  pose proof (Z.mod_pos_bound (Z.of_nat n) 2 ltac:(lia)).
  pose proof (Z.div_mod (- Z.of_nat n) 2 ltac:(lia)).
  pose proof (Z.mod_pos_bound (- Z.of_nat n) 2 ltac:(lia)).
  lia.
Qed.

Lemma between_halves (f c s : Z) :
  0 ≤ c - f ≤ 1 → 0 ≤ (s - f) * (s - c) ∧ ((s - f) * (s - c) = 0 ↔ s = f ∨ s = c).
Proof.
  intros Hfc. split.
  - destruct (Z_le_gt_dec s f).
    + apply Z.mul_nonpos_nonpos; lia.
    + apply Z.mul_nonneg_nonneg; lia.
  - rewrite Z.mul_eq_0. lia.
Qed.

Lemma xsum_assignment_from (pre sample : list Z) :
  xsum (assignment (pre ++ sample)) (seq (length pre) (length sample))
  = foldr Z.add 0 sample.
Proof.
  revert pre. induction sample as [|a sample IH]; intros pre; [done|].
  cbn [length seq]. rewrite xsum_cons.
  unfold assignment at 1. rewrite list_lookup_middle by done. cbn [default].
  specialize (IH (pre ++ [a])). rewrite <- (assoc (++)), length_app in IH.
  cbn [length app] in IH. rewrite Nat.add_1_r in IH. rewrite IH.
  reflexivity.
Qed.

Lemma xsum_assignment (sample : list Z) :
  xsum (assignment sample) (seq 0 (length sample)) = foldr Z.add 0 sample.
Proof. apply (xsum_assignment_from []). Qed.

(** X7. For any number of nodes and [gamma > 0], a binary assignment minimises
    the penalty portion exactly when its number of ones is [floor(n/2)] or
    [ceil(n/2)]; so on a graph as the random-graph builder yields it, with
    fewer than 255 nodes (where both sizes and every rejected count are
    told apart in the [int8] sum of the sample), the partition check
    accepts a sample exactly when the sample minimises the penalty
    portion. *)
Theorem penalty_minimum_any_size (gamma : Z) (G : Graph) (x : nat → Z) :
  0 < gamma →
  NoDup (nodes G) →
  binary_on (nodes G) x →
  ((∀ y, binary_on (nodes G) y →
         energy (penalty_Q gamma G) x ≤ energy (penalty_Q gamma G) y)
   ↔ xsum x (nodes G) = floor_half (length (nodes G))
     ∨ xsum x (nodes G) = ceil_half (length (nodes G))) ∧
  (∀ sample, gnp_shaped G → (length (nodes G) < 255)%nat →
     sample_of G sample → x = assignment sample →
     ((∃ c, check_partition G sample = Some (ValidPartition c))
      ↔ ∀ y, binary_on (nodes G) y →
             energy (penalty_Q gamma G) x ≤ energy (penalty_Q gamma G) y)).
Proof.
  intros Hg Hnd Hx.
  destruct (half_split (length (nodes G))) as [Hsum Hgap].
  set (f := floor_half (length (nodes G))) in *.
  set (c := ceil_half (length (nodes G))) in *.
  assert (∀ z, binary_on (nodes G) z →
               energy (penalty_Q gamma G) z
               = gamma * ((xsum z (nodes G) - f) * (xsum z (nodes G) - c)) - gamma * (f * c))
    as Hen by (intros z Hz; rewrite energy_penalty_Q by done; lia).
  assert ((∀ y, binary_on (nodes G) y →
                energy (penalty_Q gamma G) x ≤ energy (penalty_Q gamma G) y)
          ↔ xsum x (nodes G) = f ∨ xsum x (nodes G) = c) as Hiff.
  { destruct (between_halves f c (xsum x (nodes G)) Hgap) as [Hpos Hzero].
    split.
    - intros Hmin. destruct (balanced_exists G Hnd) as [Hy Hbal].
      specialize (Hmin _ Hy). rewrite !Hen, Hbal in Hmin by done. fold f in Hmin.
      apply Hzero.
      assert (gamma * ((xsum x (nodes G) - f) * (xsum x (nodes G) - c)) ≤ gamma * 0) as Hle
        by lia.
      apply Z.mul_le_mono_pos_l in Hle; lia.
    - intros Hs%Hzero y Hy. rewrite !Hen, Hs by done.
      destruct (between_halves f c (xsum y (nodes G)) Hgap) as [Hpos' _].
      assert (0 ≤ gamma * ((xsum y (nodes G) - f) * (xsum y (nodes G) - c)))
        by (apply Z.mul_nonneg_nonneg; lia).
      lia. }
  split; [exact Hiff|].
  intros sample HG Hsmall Hs ->. rewrite Hiff.
  assert (xsum (assignment sample) (nodes G) = ones sample) as ->.
  { destruct HG as (Hseq & _ & _). destruct Hs as (Hlen & Hbin & _).
    rewrite Hseq, <- Hlen, xsum_assignment. by apply foldr_add_ones. }
  split.
  - intros [cnt Hc].
    destruct (decide (ones sample = f ∨ ones sample = c)) as [Hy|Hn]; [done|].
    rewrite (check_partition_invalid G sample Hs Hsmall Hn) in Hc. discriminate Hc.
  - intros Hy. eexists. by apply check_partition_valid.
Qed.

Lemma penalty_minimum_any_size_witness :
  let G := MkGraph (seq 0 5) [(0, 1); (1, 2)]%nat in
  let x := assignment [1; 0; 1; 0; 0] in
  0 < 80 ∧ NoDup (nodes G) ∧ binary_on (nodes G) x ∧
  (∀ y, binary_on (nodes G) y →
        energy (penalty_Q 80 G) x ≤ energy (penalty_Q 80 G) y).
Proof.
  intros G x.
  assert (0 < 80) as Hg by lia.
  assert (NoDup (nodes G)) as Hnd by apply NoDup_seq.
  assert (binary_on (nodes G) x) as Hx
    by (apply assignment_binary; repeat constructor; auto).
  repeat (split; [assumption|]).
  apply (proj1 (penalty_minimum_any_size 80 G x Hg Hnd Hx)).
  left. reflexivity.
Defined.

(** *** Chain strength and the size of the map *)

Lemma before_elem l u v : before l u v → u ∈ l ∧ v ∈ l.
Proof.
  intros (a & b & _ & Ha & Hb). split; by eapply list_elem_of_lookup_2.
Qed.

Lemma before_asym l u v : NoDup l → before l u v → before l v u → False.
Proof.
  intros Hnd (a & b & Hab & Ha & Hb) (a' & b' & Hab' & Ha' & Hb').
  pose proof (NoDup_lookup l a b' u Hnd Ha Hb').
  pose proof (NoDup_lookup l b a' v Hnd Hb Ha'). lia.
Qed.

(** A node of a simple graph has at most [n - 1] edges. *)
Lemma degree_bound G i :
  simple_graph G → i ∈ nodes G →
  0 ≤ degree G i ≤ Z.of_nat (length (nodes G)) - 1.
Proof.
  intros (Hnd & Hes & Hbef) Hi. unfold degree. split; [lia|].
  set (F := filter (λ e, e.1 = i ∨ e.2 = i) (edges G)).
  set (other := λ e : nat * nat, if decide (e.1 = i) then e.2 else e.1).
  assert (∀ e, e ∈ F → e ∈ edges G ∧ (e.1 = i ∨ e.2 = i)) as HF
    by (intros e He; apply list_elem_of_filter in He; tauto).
  assert (NoDup (i :: (other <$> F))) as Hnd'.
  { apply NoDup_cons. split.
    - intros ([a b] & Hia & [Hab Ht]%HF)%list_elem_of_fmap.
      pose proof (before_ne _ _ _ Hnd (Hbef a b Hab)) as Hne.
      unfold other in Hia. cbn [fst snd] in *. case_decide; lia.
    - apply NoDup_fmap_2_strong; [|by apply NoDup_filter].
      intros [a b] [a' b'] [Hab Ht]%HF [Hab' Ht']%HF Heq.
      unfold other in Heq. cbn [fst snd] in *.
      pose proof (before_ne _ _ _ Hnd (Hbef a b Hab)).
      pose proof (before_ne _ _ _ Hnd (Hbef a' b' Hab')).
      repeat case_decide; simplify_eq; try done.
      + assert (b' = i) as -> by lia.
        destruct (before_asym _ _ _ Hnd (Hbef _ _ Hab) (Hbef _ _ Hab')).
      + assert (b = i) as -> by lia.
        destruct (before_asym _ _ _ Hnd (Hbef _ _ Hab) (Hbef _ _ Hab')).
      + assert (b = i) as -> by lia. assert (b' = i) as -> by lia. done. }
  assert (i :: (other <$> F) ⊆+ nodes G) as Hsub.
  { apply NoDup_submseteq; [done|]. intros w [->|Hw]%elem_of_cons; [done|].
    apply list_elem_of_fmap in Hw as ([a b] & -> & [Hab _]%HF).
    destruct (before_elem _ _ _ (Hbef a b Hab)). unfold other; cbn [fst snd].
    by case_decide. }
  apply submseteq_length in Hsub. cbn [length] in Hsub.
  rewrite length_fmap in Hsub. fold F. lia.
Qed.

Lemma length_filter_eq_le (k : nat * nat) (es : list (nat * nat)) :
  NoDup es → (length (filter (λ e, e = k) es) ≤ 1)%nat.
Proof.
  intros Hnd. destruct (decide (k ∈ es)) as [Hin|Hin].
  - by rewrite length_filter_eq_NoDup.
  - destruct (filter (λ e, e = k) es) as [|e' l] eqn:Hf; [cbn; lia|].
    assert (e' ∈ filter (λ e, e = k) es) as He by (rewrite Hf; by left).
    apply list_elem_of_filter in He as [-> He]. done.
Qed.

(** The keys of the map of a simple graph are the diagonal pairs of the
    nodes and the pairs [combinations] yields. *)
Lemma keys_simple_graph gamma G k :
  simple_graph G →
  k ∈ dom (build_Q gamma G)
  ↔ k ∈ ((λ i, (i, i)) <$> nodes G) ++ combinations (nodes G).
Proof.
  intros (Hnd & Hes & Hbef). rewrite elem_of_dom_build_Q, elem_of_app. split.
  - intros [(u & v & Huv & Hk)|[Hd|Hc]]; [|by left|by right].
    destruct (before_elem _ _ _ (Hbef u v Huv)) as [Hu Hv].
    destruct Hk as [->|[->| ->]].
    + left. by apply (list_elem_of_fmap_2 (λ i, (i, i))).
    + left. by apply (list_elem_of_fmap_2 (λ i, (i, i))).
    + right. by apply elem_of_combinations_before, Hbef.
  - intros [Hd|Hc]; [right; by left|right; by right].
Qed.

(** X8. With [gamma >= 1] on a simple graph no coefficient of the map exceeds
    [chain_strength = gamma*len(G.nodes)] in absolute value. *)
Theorem chain_strength_bounds (gamma : Z) (G : Graph) (k : nat * nat) (c : Z) :
  1 ≤ gamma →
  simple_graph G →
  build_Q gamma G !! k = Some c →
  Z.abs c ≤ chain_strength gamma G.
Proof.
  intros Hg HG Hk. pose proof HG as (Hnd & Hes & Hbef).
  assert (coeff (build_Q gamma G) k = c) as Hc by (unfold coeff; by rewrite Hk).
  assert (k ∈ dom (build_Q gamma G)) as Hdom by (apply elem_of_dom; eauto).
  unfold chain_strength. set (n := Z.of_nat (length (nodes G))).
  apply keys_simple_graph in Hdom; [|done].
  apply elem_of_app in Hdom as [Hd|Hcomb].
  - apply list_elem_of_fmap in Hd as (i & -> & Hi).
    rewrite coeff_node in Hc by done. fold n in Hc.
    pose proof (degree_bound G i HG Hi) as Hdeg. fold n in Hdeg.
    assert (1 * (n - 1) ≤ gamma * (n - 1)) by (apply Z.mul_le_mono_nonneg_r; lia).
    assert (c ≤ 0) by nia. rewrite Z.abs_neq by done. nia.
  - destruct k as [u v]. pose proof Hcomb as Hbuv%elem_of_combinations_before.
    pose proof (before_ne _ _ _ Hnd Hbuv) as Hne.
    rewrite coeff_build_Q in Hc by done.
    rewrite contrib_objective_offdiag in Hc by done.
    rewrite decide_False in Hc by by apply not_diagonal.
    rewrite decide_True in Hc by done.
    pose proof (length_filter_eq_le (u, v) (edges G) Hes) as Hcount.
    assert (2 ≤ n) as Hn.
    { destruct Hbuv as (a & b & Hab & Ha & Hb).
      apply lookup_lt_Some in Hb. unfold n. lia. }
    assert (0 ≤ c ≤ 2 * gamma) by lia.
    rewrite Z.abs_eq by lia. nia.
Qed.

Lemma chain_strength_bounds_witness :
  1 ≤ 80 ∧ simple_graph Examples.square_graph ∧
  build_Q 80 Examples.square_graph !! (2, 2)%nat = Some (-238) ∧
  Z.abs (-238) ≤ chain_strength 80 Examples.square_graph.
Proof.
  assert (1 ≤ 80) as Hg by lia.
  pose proof (gnp_simple _ square_graph_shaped) as HG.
  assert (build_Q 80 Examples.square_graph !! (2, 2)%nat = Some (-238)) as Hk
    by (by vm_compute).
  repeat (split; [assumption|]).
  exact (chain_strength_bounds 80 Examples.square_graph (2, 2)%nat (-238) Hg HG Hk).
Defined.

Lemma length_combinations l :
  2 * Z.of_nat (length (combinations l))
  = Z.of_nat (length l) * (Z.of_nat (length l) - 1).
Proof.
  induction l as [|a l IH]; [done|].
  cbn [combinations length]. rewrite length_app, length_map. lia.
Qed.

(** X9. The map of a simple graph on [n] nodes has a key for every unordered
    pair of nodes and for every node, [n*(n+1)/2] keys in all; the number
    of pair-penalty statements is the number of possible edges that the
    set-up cell prints, and the graph has at most that many edges. *)
Theorem map_size (gamma : Z) (G : Graph) :
  simple_graph G →
  let n := Z.of_nat (length (nodes G)) in
  2 * Z.of_nat (size (build_Q gamma G)) = n * (n + 1) ∧
  Z.of_nat (length (combinations (nodes G))) = possible_edges G ∧
  2 * possible_edges G = n * (n - 1) ∧
  Z.of_nat (length (edges G)) ≤ possible_edges G.
Proof.
  intros HG n. pose proof HG as (Hnd & Hes & Hbef).
  pose proof (length_combinations (nodes G)) as Hlen. fold n in Hlen.
  assert (Z.of_nat (length (combinations (nodes G))) = possible_edges G) as Hposs.
  { unfold possible_edges. fold n. rewrite <- Hlen.
    by rewrite Z.mul_comm, Z.div_mul. }
  split; [|split; [done|split; [lia|]]].
  - assert (dom (build_Q gamma G)
            = list_to_set (((λ i, (i, i)) <$> nodes G) ++ combinations (nodes G))) as Hdom.
    { apply set_eq. intros k. rewrite elem_of_list_to_set. by apply keys_simple_graph. }
    rewrite <- size_dom, Hdom, size_list_to_set.
    + rewrite length_app, length_fmap, Nat2Z.inj_add. fold n. lia.
    + apply NoDup_app. split; [by apply NoDup_diagonal|].
      split; [|by apply NoDup_combinations].
      intros [u v] (i & [= -> ->] & _)%list_elem_of_fmap Hc%elem_of_combinations_before.
      by eapply before_ne.
  - rewrite <- Hposs. apply inj_le, submseteq_length, NoDup_submseteq; [done|].
    intros [u v] Huv. by apply elem_of_combinations_before, Hbef.
Qed.

Lemma map_size_witness :
  simple_graph Examples.square_graph ∧
  size (build_Q 80 Examples.square_graph) = 10%nat ∧
  possible_edges Examples.square_graph = 6.
Proof.
  pose proof (gnp_simple _ square_graph_shaped) as HG.
  split; [exact HG|].
  destruct (map_size 80 Examples.square_graph HG) as (Hsize & Hcomb & _).
  split; [|by rewrite <- Hcomb].
  change (Z.of_nat (length (nodes Examples.square_graph))) with 4 in Hsize. lia.
Defined.

(** *** When the partition check raises *)

Lemma cut_term_None sample e :
  cut_term sample e = None
  ↔ (length sample ≤ e.1)%nat ∨ (length sample ≤ e.2)%nat.
Proof.
  unfold cut_term. split.
  - intros H. destruct (sample !! e.1) as [xu|] eqn:Hu.
    + destruct (sample !! e.2) as [xv|] eqn:Hv; [discriminate H|].
      right. by apply lookup_ge_None.
    + left. by apply lookup_ge_None.
  - intros [Hu|Hv].
    + by rewrite (lookup_ge_None_2 _ _ Hu).
    + rewrite (lookup_ge_None_2 _ _ Hv). by destruct (sample !! e.1).
Qed.

Lemma num_cut_edges_fold_None sample es r :
  foldl (λ r e, n ← r; c ← cut_term sample e; Some (int8 (n + c))) r es = None
  ↔ r = None ∨ Exists (λ e, (length sample ≤ e.1)%nat ∨ (length sample ≤ e.2)%nat) es.
Proof.
  revert r. induction es as [|e es IH]; intros r.
  - cbn [foldl]. rewrite Exists_nil. tauto.
  - cbn [foldl]. rewrite IH, Exists_cons, <- cut_term_None.
    destruct r as [n|]; cbn [mbind option_bind]; [|tauto].
    destruct (cut_term sample e) as [c|]; cbn [mbind option_bind].
    + split; [intros [?|?]; [done|tauto]|intros [?|[?|?]]; [done|done|tauto]].
    + tauto.
Qed.

(** X10. The size test compares [sum(sample)], the entries added up and
    reduced to [int8], with the two accepted sizes. The partition check
    raises (an index outside the sample) exactly when the size test passes
    and some edge names a node that is not an index of the sample; a
    sample that fails the size test is reported invalid without any entry
    being read. *)
Theorem check_partition_raises (G : Graph) (sample : list Z) :
  let sizes := [floor_half (length (nodes G)); ceil_half (length (nodes G))] in
  sum_sample sample = int8 (foldr Z.add 0 sample) ∧
  (check_partition G sample = None
   ↔ sum_sample sample ∈ sizes ∧
     Exists (λ e, (length sample ≤ e.1)%nat ∨ (length sample ≤ e.2)%nat) (edges G)) ∧
  (sum_sample sample ∉ sizes → check_partition G sample = Some InvalidPartition).
Proof.
  intros sizes. split; [apply sum_sample_int8|].
  unfold check_partition. fold sizes.
  destruct (decide (sum_sample sample ∈ sizes)) as [Hin|Hout].
  - split; [|done]. unfold num_cut_edges.
    destruct (foldl _ (Some 0) (edges G)) as [c|] eqn:Hf; cbn [fmap option_fmap option_map].
    + split; [done|]. intros [_ Hex].
      assert (foldl (λ r e, n ← r; c ← cut_term sample e; Some (int8 (n + c)))
                    (Some 0) (edges G)
              = None) as Hnone by (apply num_cut_edges_fold_None; by right).
      congruence.
    + split; [|done]. intros _. split; [done|].
      apply num_cut_edges_fold_None in Hf as [Hf|Hf]; [discriminate Hf|done].
  - split; [|done]. split; [done|tauto].
Qed.

(** X15. With fewer than 255 nodes and fewer than 128 cut edges nothing
    wraps in the check: it reports a valid partition, with the number of
    edges whose endpoints the sample separates, when the number of ones in
    the sample is [floor(n/2)] or [ceil(n/2)], and an invalid partition
    otherwise. *)
Theorem check_partition_below_wrap (G : Graph) (sample : list Z) :
  sample_of G sample →
  (length (nodes G) < 255)%nat →
  let n := length (nodes G) in
  let cut := filter (λ e, assignment sample e.1 ≠ assignment sample e.2) (edges G) in
  (length cut < 128)%nat →
  floor_half n = Z.of_nat (n / 2) ∧ ceil_half n = Z.of_nat ((n + 1) / 2) ∧
  (ones sample = floor_half n ∨ ones sample = ceil_half n →
     check_partition G sample = Some (ValidPartition (Z.of_nat (length cut)))) ∧
  (¬ (ones sample = floor_half n ∨ ones sample = ceil_half n) →
     check_partition G sample = Some InvalidPartition).
Proof.
  intros Hs Hn n cut Hcut.
  split; [apply floor_half_spec|]. split; [apply ceil_half_spec|]. split.
  - intros Hy. rewrite (check_partition_valid G sample Hs Hn Hy). do 2 f_equal.
    destruct Hs as (_ & Hb & _).
    pose proof (MaxCutFacts.length_cut_edges G (assignment sample)
                  (assignment_binary sample (endpoints G) Hb)) as Hlen.
    change (MaxCut.cut_edges G (assignment sample)) with cut in Hlen.
    rewrite <- Hlen. apply NumericFacts.int8_small. lia.
  - intros Hy. by apply check_partition_invalid.
Qed.

Lemma check_partition_below_wrap_witness :
  let G := Examples.path41 in
  let sample := Examples.sample_with 20 in
  sample_of G sample ∧
  check_partition G sample
  = Some (ValidPartition
            (Z.of_nat (length (filter (λ e, assignment sample e.1 ≠ assignment sample e.2)
                                      (edges G))))).
Proof.
  intros G sample.
  assert (sample_of G sample) as Hs by (apply path41_sample; lia).
  assert (length (nodes G) < 255)%nat as Hn by (vm_compute; lia).
  assert (length (filter (λ e, assignment sample e.1 ≠ assignment sample e.2) (edges G))
          < 128)%nat as Hcut by (vm_compute; lia).
  split; [exact Hs|].
  destruct (check_partition_below_wrap G sample Hs Hn Hcut) as (_ & _ & Hval & _).
  apply Hval. left. reflexivity.
Defined.

End PenaltyWeight.

(** ** The knapsack model against the parsed result *)

Module KnapsackRoundTrip.
Import Qubo QuboFacts Numeric Knapsack KnapsackFacts.

(** X11. [encode] raises exactly when there are fewer weights than values;
    otherwise the objective and the constraint have the item indices
    [0..k-1] as their variables, in that order; item [i] carries the
    [float64] nearest to [-values[i]] in the objective and to
    [weights[i]] in the constraint, which are [-values[i]] and
    [weights[i]] themselves below [2^53] in magnitude; and the bound of
    the constraint is the [float64] nearest to [max_weight]. *)
Theorem encode_fails_iff (values weights : list Z) (max_weight : Z) :
  (encode values weights max_weight = None
   ↔ (length weights < length values)%nat) ∧
  (∀ cqm, encode values weights max_weight = Some cqm →
     capacity_rhs cqm = f64 max_weight ∧
     (Z.abs max_weight < 2 ^ 53 → capacity_rhs cqm = max_weight) ∧
     variables (objective cqm) = seq 0 (length values) ∧
     variables (capacity_lhs cqm) = seq 0 (length values) ∧
     ∀ i, ((i < length values)%nat ↔ is_Some (linear (objective cqm) !! i)) ∧
          ((i < length values)%nat ↔ is_Some (linear (capacity_lhs cqm) !! i)) ∧
          (∀ v w, (i < length values)%nat → values !! i = Some v → weights !! i = Some w →
             linear (objective cqm) !! i = Some (f64 (int64 (- v))) ∧
             linear (capacity_lhs cqm) !! i = Some (f64 w) ∧
             (Z.abs v < 2 ^ 53 → linear (objective cqm) !! i = Some (- v)) ∧
             (Z.abs w < 2 ^ 53 → linear (capacity_lhs cqm) !! i = Some w))).
Proof.
  split.
  - pose proof (loop_is_Some values weights (length values) ltac:(lia)) as Hsome.
    unfold encode. destruct (loop values weights (length values)) as [s|].
    + cbn [mbind option_bind]. split; [done|].
      assert (length values ≤ length weights)%nat by (apply Hsome; by eexists). lia.
    + cbn [mbind option_bind]. split; [|done]. intros _.
      destruct (decide (length values ≤ length weights)%nat) as [Hle|Hgt]; [|lia].
      apply Hsome in Hle as [? [=]].
  - intros cqm (Hlen & Hrhs & Hvo & _ & Hvc & _ & Hobj & Hcon)%encode_Some_shape.
    split; [done|].
    split; [intros Hm; by rewrite Hrhs, NumericFacts.f64_small|].
    split; [done|]. split; [done|].
    intros i. rewrite Hobj, Hcon. split; [|split].
    + rewrite fmap_is_Some. symmetry. apply lookup_lt_is_Some.
    + case_decide as Hi.
      * rewrite fmap_is_Some. split; [|done]. intros _.
        apply lookup_lt_is_Some. lia.
      * split; [done|]. by intros [? [=]].
    + intros v w Hi Hv Hw. rewrite decide_True, Hv, Hw by done.
      cbn [fmap option_fmap option_map].
      split; [done|]. split; [done|]. split.
      * intros Hb. by rewrite stored_neg_value.
      * intros Hb. by rewrite NumericFacts.f64_small.
Qed.

(** X12. The constraint the knapsack encoder builds, evaluated at the
    indicator vector of a set of items whose weights add up, in
    magnitude, to less than [2^53], is the total weight of the set; with
    [max_weight] below [2^53] in magnitude too the constraint holds at
    that vector exactly when the set fits the capacity [max_weight]. *)
Theorem capacity_at_indicator (values weights : list Z) (max_weight : Z) (S : list nat) :
  (length values ≤ length weights)%nat →
  NoDup S →
  (∀ i, i ∈ S → (i < length values)%nat) →
  abs_total_at weights S < 2 ^ 53 →
  Z.abs max_weight < 2 ^ 53 →
  ∃ cqm total_weight,
    encode values weights max_weight = Some cqm ∧
    sum_loc weights S = Some total_weight ∧
    total_weight = foldr (λ i s, default 0 (weights !! i) + s) 0 S ∧
    bqm_energy (capacity_lhs cqm) (indicator S) = total_weight ∧
    capacity_rhs cqm = max_weight ∧
    (bqm_energy (capacity_lhs cqm) (indicator S) ≤ capacity_rhs cqm
     ↔ total_weight ≤ max_weight).
Proof.
  intros Hlen HS Hin Hb Hm.
  destruct (encode_is_Some values weights max_weight Hlen) as [cqm Henc].
  pose proof (encode_Some_shape _ _ _ _ Henc) as (_ & Hrhs & _).
  rewrite NumericFacts.f64_small in Hrhs by done.
  exists cqm, (foldr (λ i s, default 0 (weights !! i) + s) 0 S).
  split; [done|].
  split; [apply sum_loc_in_range; intros i Hi; specialize (Hin i Hi); lia|].
  split; [done|].
  rewrite (capacity_energy_indicator _ _ _ _ _ Henc HS Hin Hb), Hrhs. done.
Qed.

Lemma capacity_at_indicator_witness :
  let values := [60; 100; 120] in
  let weights := [10; 20; 30; 40] in
  ∃ cqm,
    encode values weights 50 = Some cqm ∧
    bqm_energy (capacity_lhs cqm) (indicator [1; 2]%nat) = 50.
Proof.
  intros values weights.
  assert (length values ≤ length weights)%nat as Hlen by (cbn; lia).
  assert (NoDup [1; 2]%nat) as Hnd by (apply (bool_decide_unpack _); vm_compute; exact I).
  assert (∀ i, i ∈ [1; 2]%nat → (i < length values)%nat) as Hin.
  { intros i. rewrite !elem_of_cons, elem_of_nil. cbn. lia. }
  assert (abs_total_at weights [1; 2]%nat < 2 ^ 53) as Hb by reflexivity.
  assert (Z.abs 50 < 2 ^ 53) as Hm by reflexivity.
  destruct (capacity_at_indicator values weights 50 [1; 2]%nat Hlen Hnd Hin Hb Hm)
    as (cqm & tw & Henc & _ & Htw & Hen & _).
  exists cqm. split; [exact Henc|]. rewrite Hen, Htw. reflexivity.
Defined.

(** *** From the sampler's rows back to the items *)

(** The entries of a series at distinct items weigh no more than the
    whole series. *)
Lemma abs_total_seq (pre l : list Z) :
  foldr (λ i s, Z.abs (default 0 ((pre ++ l) !! i)) + s) 0 (seq (length pre) (length l))
  = abs_total l.
Proof.
  revert pre. induction l as [|a l IH]; intros pre; [done|].
  cbn [length seq foldr abs_total]. fold (abs_total l).
  rewrite list_lookup_middle by done.
  change (default 0 (Some a)) with a.
  specialize (IH (pre ++ [a])).
  replace ((pre ++ [a]) ++ l) with (pre ++ a :: l) in IH
    by (by rewrite <- (assoc (++))).
  rewrite length_app in IH. cbn [length] in IH. rewrite Nat.add_1_r in IH.
  by rewrite IH.
Qed.

Lemma wsum_indicator_le (w : nat → Z) S l :
  (∀ i, 0 ≤ w i) → wsum w (indicator S) l ≤ foldr (λ i s, w i + s) 0 l.
Proof.
  intros Hw. induction l as [|i l IH]; [done|].
  rewrite wsum_cons. cbn [foldr]. specialize (Hw i).
  unfold indicator at 1. case_decide; lia.
Qed.

Lemma abs_total_at_le series S :
  NoDup S → (∀ i, i ∈ S → (i < length series)%nat) →
  abs_total_at series S ≤ abs_total series.
Proof.
  intros HS Hin. rewrite <- (abs_total_seq [] series). cbn [length app].
  unfold abs_total_at.
  rewrite <- (wsum_indicator (λ i, Z.abs (default 0 (series !! i))) S
                (seq 0 (length series))).
  - apply (wsum_indicator_le (λ i, Z.abs (default 0 (series !! i)))). intros i. lia.
  - done.
  - apply NoDup_seq.
  - intros i Hi. apply elem_of_seq. specialize (Hin i Hi). lia.
Qed.

Lemma selected_NoDup r : NoDup (sample r).*1 → NoDup (selected r).
Proof.
  intros Hnd. unfold selected. eapply sublist_NoDup; [exact Hnd|].
  apply fmap_sublist, sublist_filter.
Qed.

Lemma selected_in_range n r :
  Forall (λ kv, (kv.1 < n)%nat ∧ (kv.2 = 0 ∨ kv.2 = 1)) (sample r) →
  ∀ i, i ∈ selected r → (i < n)%nat.
Proof.
  intros HF i Hi%selected_spec. rewrite Forall_forall in HF.
  by destruct (HF _ Hi).
Qed.

(** A binary sample dict is the indicator vector of the items it selects. *)
Lemma row_assignment_indicator n r i :
  NoDup (sample r).*1 →
  Forall (λ kv, (kv.1 < n)%nat ∧ (kv.2 = 0 ∨ kv.2 = 1)) (sample r) →
  row_assignment r i = indicator (selected r) i.
Proof.
  intros Hnd HF. unfold row_assignment, indicator. rewrite Forall_forall in HF.
  destruct (list_to_map (sample r) !! i) as [v|] eqn:Hv; cbn [default].
  - pose proof Hv as Hin. apply elem_of_list_to_map in Hin; [|done].
    destruct (HF _ Hin) as [_ Hbin]. cbn [snd] in Hbin. destruct Hbin as [-> | ->].
    + rewrite decide_False; [done|]. intros Hsel%selected_spec.
      apply (elem_of_list_to_map_1 (M := gmap nat)) in Hsel; [|done]. congruence.
    + rewrite decide_True; [done|]. by apply selected_spec.
  - rewrite decide_False; [done|]. intros Hsel%selected_spec.
    apply not_elem_of_list_to_map in Hv. apply Hv.
    by apply (list_elem_of_fmap_2 fst _ (i, 1)).
Qed.

(** What a returned tuple says about the rows. *)
Lemma parse_output_returned values weights sampleset tv tw items e :
  parse_output values weights sampleset = Returned tv tw items e →
  ∃ best, best ∈ sampleset ∧ is_feasible best = true ∧
          (∀ r, r ∈ sampleset → is_feasible r = true → energy best ≤ energy r) ∧
          items = selected best ∧ e = energy best ∧
          sum_loc values items = Some tv ∧ sum_loc weights items = Some tw.
Proof.
  unfold parse_output. case_decide as Hlen; [discriminate|].
  intros Hret.
  destruct (first_spec (feasible sampleset)) as (best & Hfirst & Hin & Hmin).
  { intros Hnil. by rewrite Hnil in Hlen. }
  rewrite Hfirst in Hret.
  destruct (sum_loc weights (selected best)) as [tw'|] eqn:Hw; [|discriminate Hret].
  destruct (sum_loc values (selected best)) as [tv'|] eqn:Hv; [|discriminate Hret].
  injection Hret as <- <- <- <-.
  apply elem_of_feasible in Hin as [Hin Hfeas].
  exists best. repeat split; try done.
  intros r Hr Hf. apply Hmin. by apply elem_of_feasible.
Qed.

(** The objective and the constraint at the sample of a sound row, for
    series and a capacity that [float64] holds exactly. *)
Lemma sound_row_values values weights max_weight cqm r :
  encode values weights max_weight = Some cqm →
  abs_total values < 2 ^ 53 → abs_total weights < 2 ^ 53 → Z.abs max_weight < 2 ^ 53 →
  sound_row (length values) cqm r →
  sum_loc values (selected r) = Some (- energy r) ∧
  ∃ w, sum_loc weights (selected r) = Some w ∧
       (is_feasible r = true ↔ w ≤ max_weight).
Proof.
  intros Henc Hbv Hbw Hm (Hnd & HF & Hen & Hfeas).
  pose proof (encode_Some_shape _ _ _ _ Henc) as (Hlen & Hrhs & Hvo & _ & Hvc & _).
  rewrite NumericFacts.f64_small in Hrhs by done.
  pose proof (selected_NoDup r Hnd) as Hsel.
  pose proof (selected_in_range _ r HF) as Hrange.
  assert (∀ m, bqm_energy m (row_assignment r) = bqm_energy m (indicator (selected r)))
    as Hind.
  { intros m. apply bqm_energy_ext. intros i _. by eapply row_assignment_indicator. }
  assert (abs_total_at values (selected r) < 2 ^ 53) as Hbv'.
  { pose proof (abs_total_at_le values (selected r) Hsel Hrange). lia. }
  assert (abs_total_at weights (selected r) < 2 ^ 53) as Hbw'.
  { pose proof (abs_total_at_le weights (selected r) Hsel) as Hle.
    specialize (Hle (λ i Hi, Nat.lt_le_trans _ _ _ (Hrange i Hi) Hlen)). lia. }
  split.
  - rewrite sum_loc_in_range by done. f_equal.
    rewrite Hen, Hind, (objective_energy_indicator _ _ _ _ _ Henc) by done. lia.
  - eexists. split; [apply sum_loc_in_range; intros i Hi; specialize (Hrange i Hi); lia|].
    by rewrite Hfeas, Hind, (capacity_energy_indicator _ _ _ _ _ Henc), Hrhs.
Qed.

(** X13. For series and a capacity that [float64] holds exactly (the
    values and the weights each add up, in magnitude, to less than
    [2^53], and so does [max_weight]): when every row is as the
    constrained sampler reports it for the encoded model, the tuple
    [knapsack_dwave] returns is consistent: the total value is minus the
    best energy, the total weight respects [max_weight], the items are
    distinct item indices, and no feasible row selects items of larger
    total value. *)
Theorem returned_solution_sound (values weights : list Z) (max_weight : Z)
    (cqm : CQM) (sampleset : list row) (tv tw : Z) (items : list nat) (e : Z) :
  abs_total values < 2 ^ 53 →
  abs_total weights < 2 ^ 53 →
  Z.abs max_weight < 2 ^ 53 →
  encode values weights max_weight = Some cqm →
  (∀ r, r ∈ sampleset → sound_row (length values) cqm r) →
  parse_output values weights sampleset = Returned tv tw items e →
  tv = - e ∧
  tw ≤ max_weight ∧
  NoDup items ∧
  (∀ i, i ∈ items → (i < length values)%nat) ∧
  (∀ r, r ∈ sampleset → is_feasible r = true →
        ∃ vr, sum_loc values (selected r) = Some vr ∧ vr ≤ tv).
Proof.
  intros Hbv Hbw Hm Henc Hsound Hret.
  apply parse_output_returned in Hret
    as (best & Hin & Hfeas & Hmin & -> & -> & Hv & Hw).
  pose proof (Hsound best Hin) as Hbest.
  destruct (sound_row_values _ _ _ _ _ Henc Hbv Hbw Hm Hbest) as (Hv' & w & Hw' & Hcap).
  rewrite Hv in Hv'. injection Hv' as ->.
  rewrite Hw in Hw'. injection Hw' as ->.
  destruct Hbest as (Hnd & HF & _ & _).
  split; [done|]. split; [by apply Hcap|].
  split; [by apply selected_NoDup|]. split; [by eapply selected_in_range|].
  intros r Hr Hf.
  destruct (sound_row_values _ _ _ _ _ Henc Hbv Hbw Hm (Hsound r Hr)) as (Hvr & _).
  eexists. split; [exact Hvr|]. specialize (Hmin r Hr Hf). lia.
Qed.

Lemma returned_solution_sound_witness :
  let values := [60; 100; 120] in
  let weights := [10; 20; 30] in
  ∃ cqm,
    encode values weights 50 = Some cqm ∧
    (∀ r, r ∈ small_sampleset → sound_row (length values) cqm r) ∧
    parse_output values weights small_sampleset = Returned 220 50 [1; 2]%nat (-220) ∧
    220 = - -220 ∧ 50 ≤ 50.
Proof.
  intros values weights. eexists.
  assert (∀ A B C D : Prop, A → (A → B) → (A → B → C) → (A → B → C → D) → A ∧ B ∧ C ∧ D)
    as Hchain by tauto.
  apply Hchain.
  - vm_compute. reflexivity.
  - intros _ r Hr. unfold small_sampleset in Hr.
    rewrite !elem_of_cons, elem_of_nil in Hr.
    destruct Hr as [->|[->|[->|[]]]];
      (split; [apply (bool_decide_unpack _); vm_compute; exact I|]);
      (split; [apply (bool_decide_unpack _); vm_compute; exact I|]);
      (split; [vm_compute; reflexivity|]);
      (split; intros H;
       [try discriminate H; vm_compute; discriminate
       |try reflexivity; exfalso; vm_compute in H; by apply H]).
  - intros _ _. reflexivity.
  - intros Henc Hsound Hret.
    assert (abs_total values < 2 ^ 53) as Hbv by reflexivity.
    assert (abs_total weights < 2 ^ 53) as Hbw by reflexivity.
    assert (Z.abs 50 < 2 ^ 53) as Hm by reflexivity.
    destruct (returned_solution_sound values weights 50 _ small_sampleset
                220 50 [1; 2]%nat (-220) Hbv Hbw Hm Henc Hsound Hret) as (Hv & Hw & _).
    split; [exact Hv|exact Hw].
Defined.

End KnapsackRoundTrip.

(** ** The toy problem for any penalty weight *)

Module ToyPenalty.
Import Qubo QuboFacts Toy.

Lemma toy_energy_with A x :
  energy (toy_Q_with A) x
  = (1 - A) * x 1%nat * x 1%nat + (1 - A) * x 2%nat * x 2%nat
    + x 3%nat * x 3%nat + 2 * A * x 1%nat * x 2%nat.
Proof.
  unfold toy_Q_with, assign, at_.
  rewrite !energy_insert_fresh, energy_empty.
  - unfold term_energy. cbn [fst snd]. lia.
  - apply lookup_empty.
  - by rewrite lookup_insert_ne, lookup_empty.
  - by rewrite !lookup_insert_ne, lookup_empty.
  - by rewrite !lookup_insert_ne, lookup_empty.
Qed.

(** X14. With any penalty weight [A] in place of 4, the toy map is the
    objective [v + w + t] plus [A*(v + w - 1)^2] up to the constant [A].
    For [A > 1] the assignments of least energy are exactly those with
    [v + w = 1] and [t = 0]; for [A <= 1] the all-zero assignment, which
    breaks [v + w = 1], is of least energy. *)
Theorem toy_penalty_threshold (A : Z) (x : nat → Z) :
  binary_on toy_vars x →
  toy_Q_with 4 = toy_Q ∧
  energy (toy_Q_with A) x + A
  = x 1%nat + x 2%nat + x 3%nat
    + A * ((x 1%nat + x 2%nat - 1) * (x 1%nat + x 2%nat - 1)) ∧
  (1 < A →
   ((∀ y, binary_on toy_vars y → energy (toy_Q_with A) x ≤ energy (toy_Q_with A) y)
    ↔ x 1%nat + x 2%nat = 1 ∧ x 3%nat = 0)) ∧
  (A ≤ 1 →
   ∀ y, binary_on toy_vars y →
        energy (toy_Q_with A) (λ _, 0) ≤ energy (toy_Q_with A) y).
Proof.
  intros Hx. split; [reflexivity|].
  pose proof (ToyFacts.toy_binary x Hx) as (H1 & H2 & H3).
  split; [|split].
  - rewrite toy_energy_with.
    destruct H1 as [-> | ->], H2 as [-> | ->], H3 as [-> | ->]; lia.
  - intros HA. split.
    + intros Hmin. specialize (Hmin printed_sample (indicator_binary _ _)).
      rewrite !toy_energy_with in Hmin.
      change (printed_sample 1%nat) with 1 in Hmin.
      change (printed_sample 2%nat) with 0 in Hmin.
      change (printed_sample 3%nat) with 0 in Hmin.
      destruct H1 as [E1|E1], H2 as [E2|E2], H3 as [E3|E3];
        rewrite E1, E2, E3 in Hmin |- *; lia.
    + intros [Hsum Ht] y (Y1 & Y2 & Y3)%ToyFacts.toy_binary.
      rewrite !toy_energy_with, Ht.
      destruct H1 as [E1|E1], H2 as [E2|E2]; rewrite E1, E2 in Hsum |- *;
        destruct Y1 as [-> | ->], Y2 as [-> | ->], Y3 as [-> | ->]; lia.
  - intros HA y (Y1 & Y2 & Y3)%ToyFacts.toy_binary.
    rewrite !toy_energy_with.
    destruct Y1 as [-> | ->], Y2 as [-> | ->], Y3 as [-> | ->]; lia.
Qed.

Lemma toy_penalty_threshold_witness :
  binary_on toy_vars printed_sample ∧
  (∀ y, binary_on toy_vars y →
        energy (toy_Q_with 2) printed_sample ≤ energy (toy_Q_with 2) y).
Proof.
  assert (binary_on toy_vars printed_sample) as Hb by apply indicator_binary.
  split; [exact Hb|].
  destruct (toy_penalty_threshold 2 printed_sample Hb) as (_ & _ & Hiff & _).
  apply Hiff; [lia|]. split; reflexivity.
Defined.

End ToyPenalty.
